(** * Ingram data services: fetch-and-stage pipeline

    A shallow embedding of [ingram_data_services/ingram.py]:
    the download dispatcher ([download_file], [download_data_files]), the
    archive extractor ([extract_cover_zip], [extract_zip],
    [unzip_onix_threaded], [unzip_covers_threaded]) and the orchestrator
    ([main]).

    The program is effectful: it opens FTP sessions, writes files, creates
    directories and may raise at almost every step.  It is embedded in a
    state-and-exception monad in which the state survives a raised
    exception, as the file system does.  Everything the program sees but
    does not define (the FTP server, the configuration file, the helpers of
    [utils], the CPU count) is gathered in the record [Env]. *)

From Stdlib Require Import ZArith NArith List String Ascii Bool Lia.
From stdpp Require Import base option gmap sets strings.
Import ListNotations.

Open Scope string_scope.
Open Scope list_scope.

(** ** Python strings and [posixpath] *)

Module Py.

(** [s.startswith("/")] and [s.endswith("/")]. *)
Definition starts_with_sep (s : string) : bool :=
  match s with
  | String c _ => Ascii.eqb c "/"
  | EmptyString => false
  end.

Fixpoint ends_with_sep (s : string) : bool :=
  match s with
  | EmptyString => false
  | String c EmptyString => Ascii.eqb c "/"
  | String _ s' => ends_with_sep s'
  end.

(** The slice [s[-n:]] for [n > 0]: the last [n] characters, or the whole
    string when it is shorter (a slice never raises). *)
Definition suffix (n : nat) (s : string) : string :=
  String.substring (String.length s - n) n s.

(** The slices [s[:k]] and [s[k:]]. *)
Definition take (k : nat) (s : string) : string := String.substring 0 k s.
Definition drop (k : nat) (s : string) : string :=
  String.substring k (String.length s - k) s.

(** [s.rfind(c)] for a one-character [c]: the highest index of [c] in [s],
    or [-1].  [rfind_from c s i] is the same for a string whose first
    character has index [i]. *)
Fixpoint rfind_from (c : ascii) (s : string) (i : Z) : Z :=
  match s with
  | EmptyString => (-1)%Z
  | String a s' =>
      let r := rfind_from c s' (i + 1)%Z in
      if (0 <=? r)%Z then r else if Ascii.eqb a c then i else (-1)%Z
  end.

Definition rfind (c : ascii) (s : string) : Z := rfind_from c s 0.

(** [os.path.join(a, b)], one step of the loop of [posixpath.join]. *)
Definition join (path b : string) : string :=
  if starts_with_sep b then b
  else if String.eqb path "" || ends_with_sep path then path ++ b
  else path ++ "/" ++ b.

(** [os.path.join(a, *p)]. *)
Definition join_all (a : string) (p : list string) : string :=
  fold_left join p a.

(** [s.rstrip("/")] and [s.lstrip("/")]. *)
Fixpoint rstrip_sep (s : string) : string :=
  match s with
  | EmptyString => EmptyString
  | String c s' =>
      match rstrip_sep s' with
      | EmptyString => if Ascii.eqb c "/" then EmptyString else String c EmptyString
      | r => String c r
      end
  end.

Fixpoint lstrip_sep (s : string) : string :=
  match s with
  | String c s' => if Ascii.eqb c "/" then lstrip_sep s' else s
  | EmptyString => EmptyString
  end.

(** [head != sep * len(head)]: some character of [head] is not a slash. *)
Fixpoint all_sep (s : string) : bool :=
  match s with
  | EmptyString => true
  | String c s' => Ascii.eqb c "/" && all_sep s'
  end.

(** [os.path.dirname(p)]. *)
Definition dirname (p : string) : string :=
  let i := (rfind "/" p + 1)%Z in
  let head := take (Z.to_nat i) p in
  if negb (String.eqb head "") && negb (all_sep head) then rstrip_sep head
  else head.

(** The loop of [genericpath._splitext] that skips leading dots:
    [skip_dots p i n] inspects the [n] characters of [p] from index [i] and
    answers whether one of them is not a dot. *)
Fixpoint skip_dots (p : string) (filenameIndex n : nat) : bool :=
  match n with
  | O => false
  | S n' =>
      match String.get filenameIndex p with
      | Some c =>
          if Ascii.eqb c "." then skip_dots p (S filenameIndex) n' else true
      | None => true
      end
  end.

(** [os.path.splitext(p)]. *)
Definition splitext (p : string) : string * string :=
  let sepIndex := rfind "/" p in
  let dotIndex := rfind "." p in
  if (sepIndex <? dotIndex)%Z then
    let filenameIndex := Z.to_nat (sepIndex + 1) in
    if skip_dots p filenameIndex (Z.to_nat dotIndex - filenameIndex)
    then (take (Z.to_nat dotIndex) p, drop (Z.to_nat dotIndex) p)
    else (p, "")
  else (p, "").

(** [s.replace(old, "")]: every non-overlapping occurrence of [old], found
    from the left, is removed.  For an empty [old] Python inserts the
    replacement between the characters, which leaves [s] as it is when the
    replacement is empty. *)
Fixpoint remove_all_from (old : string) (s : string) (fuel : nat) : string :=
  match fuel with
  | O => s
  | S fuel' =>
      match s with
      | EmptyString => EmptyString
      | String c s' =>
          if String.prefix old s
          then remove_all_from old (drop (String.length old) s) fuel'
          else String c (remove_all_from old s' fuel')
      end
  end.

Definition remove_all (old s : string) : string :=
  if String.eqb old "" then s else remove_all_from old s (String.length s).

(** The format [f'{i:04}']: decimal digits, padded with zeros on the left
    to a width of four. *)
Definition digit (d : N) : ascii := ascii_of_N (48 + d).

Fixpoint decimal_from (fuel : nat) (i : N) (acc : string) : string :=
  match fuel with
  | O => acc
  | S fuel' =>
      let acc' := String (digit (i mod 10)) acc in
      if (i / 10 =? 0)%N then acc' else decimal_from fuel' (i / 10)%N acc'
  end.

Definition decimal (i : N) : string := decimal_from (S (N.size_nat i)) i "".

Fixpoint zeros (n : nat) : string :=
  match n with O => "" | S n' => String "0" (zeros n') end.

Definition fmt04 (i : N) : string :=
  let d := decimal i in zeros (4 - String.length d) ++ d.

(** [range(0, n)]. *)
Definition range (n : N) : list N := map N.of_nat (seq 0 (N.to_nat n)).

End Py.

(** ** Exceptions, results and the world outside the program *)

Inductive exn : Type :=
| KeyboardInterrupt
| AttributeError            (* 'NoneType' object has no attribute 'terminate' *)
| TypeError                 (* a [None] where [os.path.join] wants a string *)
| RuntimeError (msg : string)
| SystemExit                (* argparse refuses the command line *)
| ConfigError (msg : string)  (* configparser: missing section or option *)
| FtpError (msg : string)   (* connection, login, listing or transfer failed *)
| OSError (msg : string)
| BadZipFile.

Inductive res (A : Type) : Type :=
| Ok (a : A)
| Raise (e : exn).
Arguments Ok {A} a.
Arguments Raise {A} e.

(** A file holds either a zip archive, given by its members in archive order
    (name and bytes; the names are relative paths, as the zip format
    requires), or other data, which [ZipFile] refuses. *)
Inductive content : Type :=
| Data (bytes : string)
| Archive (members : list (string * string)).

(** The file system: what sits at each path, a regular file or a directory.
    Paths are the strings the program builds. *)
Inductive node : Type :=
| File (c : content)
| Dir.

Abbreviation FS := (gmap string node).

(** The four feed categories of the server. *)
Inductive category : Type := Cover | Onix | OnixBacklist | Reference.

Record Args : Type := mkArgs {
  config_section : string;
  log_file : string
}.

(** What [config.get(section, option)] answers. *)
Definition Config : Type := string -> string -> res string.

(** Everything the program calls but does not define. *)
Record Env : Type := mkEnv {
  (* argparse: [get_args()] *)
  env_args : res Args;
  (* [os.path.expanduser] *)
  env_expanduser : string -> string;
  (* [configparser]: the parsed configuration file *)
  env_config : res Config;
  (* [logging.handlers.RotatingFileHandler(logfile, ...)] *)
  env_open_log : string -> res unit;
  (* [utils.set_log_dir] *)
  env_set_log_dir : string -> res unit;
  (* [IngramFTP(host, user, passwd)]: connecting and logging in *)
  env_connect : option string -> option string -> option string -> res unit;
  (* [ftp.getwelcome()] *)
  env_welcome : res string;
  (* [ftp.get_cover_files(folder)], [ftp.get_onix_files()], ... *)
  env_listing : category -> option string -> res (list string);
  (* the transfer of [ftp.download_file(remote, local)] *)
  env_retr : string -> res content;
  (* [utils.get_local_path(remote_file, download_dir)] *)
  env_local_path : string -> string -> string;
  (* [utils.get_files_matching(dir, pattern)] on the current file system *)
  env_files_matching : FS -> string -> string -> res (list string);
  (* [utils.save_run_history()] and the clock it reads *)
  env_save : res unit;
  env_now : N;
  (* [os.cpu_count()] *)
  env_cpu_count : nat
}.

(** ** Program state and observable events *)

(** The module-level globals of ingram.py (lines 29 to 33). *)
Record Globals : Type := mkGlobals {
  host : option string;
  user : option string;
  passwd : option string;
  pool : option nat;
  cover_size : option string
}.

(** The module is loaded with every global bound to [None]. *)
Definition module_globals : Globals := mkGlobals None None None None None.

Record State : Type := mkState {
  st_fs : FS;
  st_globals : Globals;
  st_fresh : nat;            (* next identity for a session or a pool *)
  st_history : option N      (* the persisted run history *)
}.

Definition initial_state (fs : FS) (h : option N) : State :=
  mkState fs module_globals 0 h.

Inductive event : Type :=
| EvCall_download_file (remote download_dir : string) (pool_global : option nat)
| EvOpen (sid : nat)                   (* a session is opened *)
| EvClose (sid : nat)                  (* the session is closed *)
| EvList (sid : nat) (c : category) (found : list string)
                                       (* a listing on a session *)
| EvFetch (sid : nat) (remote local : string)  (* a transfer on a session *)
| EvTerminate (pid : nat)              (* [terminate()] on a pool *)
| EvPool (pid : nat)                   (* [multiprocessing.Pool()] *)
| EvGlob (dir pattern : string) (found : list string)
                                       (* [get_files_matching] *)
| EvZipOpen (file : string)            (* [ZipFile(file, "r")] *)
| EvZipClose (file : string)           (* the archive is closed *)
| EvMakedirs (path : string)           (* [os.makedirs] creates [path] *)
| EvWrite (path : string)              (* a file is written at [path] *)
| EvCheckpoint.                        (* [save_run_history()] *)

(** ** The monad: state, events and exceptions

    A computation maps a state to a result, the state it leaves and the
    events it produced, in order.  A raised exception keeps the state and
    the events reached so far. *)

Record Out (A : Type) : Type := mkOut {
  result : res A;
  final : State;
  events : list event
}.
Arguments mkOut {A}.
Arguments result {A}.
Arguments final {A}.
Arguments events {A}.

Definition M (A : Type) : Type := State -> Out A.

Definition ret {A} (a : A) : M A := fun s => mkOut (Ok a) s [].

Definition raise {A} (e : exn) : M A := fun s => mkOut (Raise e) s [].

Definition bind {A B} (m : M A) (k : A -> M B) : M B := fun s =>
  let o := m s in
  match result o with
  | Ok a => let o' := k a (final o) in
            mkOut (result o') (final o') (events o ++ events o')
  | Raise e => mkOut (Raise e) (final o) (events o)
  end.

Declare Scope py_scope.
Delimit Scope py_scope with py.
Notation "x <- m ;; k" := (bind m (fun x => k))
  (at level 100, m at next level, right associativity) : py_scope.
Notation "m ;;; k" := (bind m (fun _ => k))
  (at level 100, right associativity) : py_scope.
Open Scope py_scope.

Definition lift {A} (r : res A) : M A := fun s => mkOut r s [].

Definition emit (e : event) : M unit := fun s => mkOut (Ok tt) s [e].

Definition get_state : M State := fun s => mkOut (Ok s) s [].

Definition put_fs (fs : FS) : M unit := fun s =>
  mkOut (Ok tt) (mkState fs (st_globals s) (st_fresh s) (st_history s)) [].

Definition put_globals (g : Globals) : M unit := fun s =>
  mkOut (Ok tt) (mkState (st_fs s) g (st_fresh s) (st_history s)) [].

Definition put_history (h : option N) : M unit := fun s =>
  mkOut (Ok tt) (mkState (st_fs s) (st_globals s) (st_fresh s) h) [].

Definition fresh_id : M nat := fun s =>
  mkOut (Ok (st_fresh s))
        (mkState (st_fs s) (st_globals s) (S (st_fresh s)) (st_history s)) [].

(** [try: m] with the outcome kept as a value. *)
Definition capture {A} (m : M A) : M (res A) := fun s =>
  let o := m s in mkOut (Ok (result o)) (final o) (events o).

(** [try: m / except KeyboardInterrupt: handler]. *)
Definition except_KeyboardInterrupt {A} (m : M A) (handler : M A) : M A :=
  r <- capture m ;;
  match r with
  | Raise KeyboardInterrupt => handler
  | _ => lift r
  end.

(** [try: m / finally: cleanup], the shape of a [with] block whose
    [__exit__] does not swallow exceptions. *)
Definition finally {A} (m : M A) (cleanup : M unit) : M A :=
  r <- capture m ;;
  cleanup ;;;
  lift r.

(** A [for] loop whose body may raise. *)
Fixpoint for_each {A} (l : list A) (body : A -> M unit) : M unit :=
  match l with
  | [] => ret tt
  | x :: l' => body x ;;; for_each l' body
  end.

(** [list(itertools.starmap(f, items))]: stops at the first exception. *)
Fixpoint map_m {A B} (f : A -> M B) (l : list A) : M (list B) :=
  match l with
  | [] => ret []
  | x :: l' => y <- f x ;; ys <- map_m f l' ;; ret (y :: ys)
  end.

(** ** The file system calls *)

(** [os.path.exists(p)]. *)
Definition exists_path (fs : FS) (p : string) : bool :=
  bool_decide (is_Some (fs !! p)).

Definition is_file (fs : FS) (p : string) : bool :=
  match fs !! p with Some (File _) => true | _ => false end.

(** The directories [os.makedirs(p)] leaves behind: [p] and the
    directories above it. *)
Fixpoint ancestors (fuel : nat) (p : string) : list string :=
  match fuel with
  | O => [p]
  | S fuel' =>
      let d := Py.dirname p in
      if String.eqb d p || String.eqb d "" then [p] else p :: ancestors fuel' d
  end.

Definition add_dirs (fs : FS) (ds : list string) : FS :=
  foldr (fun d m => <[d := Dir]> m) fs ds.

(** [os.makedirs(p, exist_ok=...)]: an existing directory is accepted only
    with [exist_ok], a file at [p] is a [FileExistsError], and a file
    where a directory above [p] should be is a [NotADirectoryError]. *)
Definition makedirs (p : string) (exist_ok : bool) : M unit :=
  s <- get_state ;;
  match st_fs s !! p with
  | Some Dir => if exist_ok then ret tt else raise (OSError "FileExistsError")
  | Some (File _) => raise (OSError "FileExistsError")
  | None =>
      let ds := ancestors (String.length p) p in
      if existsb (is_file (st_fs s)) ds then raise (OSError "NotADirectoryError")
      else
        emit (EvMakedirs p) ;;;
        put_fs (add_dirs (st_fs s) ds)
  end.

(** [open(p, "wb")] followed by the copy of the bytes. *)
Definition write_file (p : string) (c : content) : M unit :=
  s <- get_state ;;
  match st_fs s !! p with
  | Some Dir => raise (OSError "IsADirectoryError")
  | _ =>
      emit (EvWrite p) ;;;
      put_fs (<[p := File c]> (st_fs s))
  end.

(** ** [zipfile] *)

(** [ZipFile(file, "r")]: the file must exist and hold an archive. *)
Definition zip_open (file : string) : M (list (string * string)) :=
  s <- get_state ;;
  match st_fs s !! file with
  | None => raise (OSError "FileNotFoundError")
  | Some Dir => raise (OSError "IsADirectoryError")
  | Some (File (Data _)) => raise BadZipFile
  | Some (File (Archive members)) => emit (EvZipOpen file) ;;; ret members
  end.

(** [with ZipFile(file, "r") as zf: body]; leaving the block closes the
    archive. *)
Definition with_ZipFile {A} (file : string)
  (body : list (string * string) -> M A) : M A :=
  zf <- zip_open file ;;
  finally (body zf) (emit (EvZipClose file)).

(** [zf.namelist()]. *)
Definition namelist (members : list (string * string)) : list string :=
  map fst members.

(** [zf.getinfo(name)]: when a name occurs twice, the later member wins. *)
Fixpoint getinfo (members : list (string * string)) (name : string)
  : option string :=
  match members with
  | [] => None
  | (n, d) :: rest =>
      match getinfo rest name with
      | Some d' => Some d'
      | None => if String.eqb n name then Some d else None
      end
  end.

(** [zf.extract(name, path)]: the member goes to [path]/[name]; the
    directories above it are created when they are missing. *)
Definition zip_extract (members : list (string * string)) (name path : string)
  : M unit :=
  match getinfo members name with
  | None => raise (OSError "KeyError")
  | Some d =>
      let targetpath := Py.join path name in
      let upperdirs := Py.dirname targetpath in
      s <- get_state ;;
      (if negb (String.eqb upperdirs "") && negb (exists_path (st_fs s) upperdirs)
       then makedirs upperdirs false else ret tt) ;;;
      write_file targetpath (Data d)
  end.

(** [zf.extractall(path)]. *)
Definition zip_extractall (members : list (string * string)) (path : string)
  : M unit :=
  for_each (namelist members) (fun name => zip_extract members name path).

(** ** [multiprocessing.Pool]

    The pool is embedded by one of its schedules: the chunks of a [starmap]
    call run one after the other in list order.  What the embedding keeps
    of the library is the chunking of the items ([_map_async]), that a task
    which raises ends its own chunk ([starmapstar]), that the other chunks
    still run before the call answers, and that the call re-raises the
    first failure ([MapResult]). *)

Definition processes (cpu_count : nat) : nat :=
  if Nat.eqb cpu_count 0 then 1 else cpu_count.

Definition chunksize (len nprocs : nat) : nat :=
  if Nat.eqb len 0 then 0
  else if Nat.eqb (len mod (nprocs * 4)) 0 then len / (nprocs * 4)
  else S (len / (nprocs * 4)).

(** [Pool._get_tasks]: slices of [size] items until the items run out. *)
Fixpoint get_tasks {A} (fuel size : nat) (it : list A) : list (list A) :=
  match fuel with
  | O => []
  | S fuel' =>
      match firstn size it with
      | [] => []
      | x => x :: get_tasks fuel' size (skipn size it)
      end
  end.

Definition merge_results {B} (r : res (list B)) (rs : res (list B))
  : res (list B) :=
  match r, rs with
  | Ok x, Ok xs => Ok (x ++ xs)
  | Raise e, _ => Raise e
  | Ok _, Raise e => Raise e
  end.

Fixpoint run_chunks {A B} (f : A -> M B) (chunks : list (list A))
  : M (res (list B)) :=
  match chunks with
  | [] => ret (Ok [])
  | c :: rest =>
      r <- capture (map_m f c) ;;
      rs <- run_chunks f rest ;;
      ret (merge_results r rs)
  end.

(** [pool.starmap(f, items)]. *)
Definition starmap {A B} (nprocs : nat) (f : A -> M B) (items : list A)
  : M (list B) :=
  let size := chunksize (length items) nprocs in
  r <- run_chunks f (get_tasks (S (length items)) size items) ;;
  lift r.

(** [with multiprocessing.Pool() as pool: body]; leaving the block
    terminates the pool. *)
Definition with_pool {A} (body : nat -> M A) : M A :=
  pid <- fresh_id ;;
  emit (EvPool pid) ;;;
  finally (body pid) (emit (EvTerminate pid)).

(** ** The program *)

Section Program.

Context (env : Env).

Definition get_globals : M Globals := s <- get_state ;; ret (st_globals s).

(** [with IngramFTP(host=host, user=user, passwd=passwd) as ftp: body].
    The class is defined in [ingram_data_services/ftp.py]; of it the
    embedding keeps that building the object connects and logs in with the
    module globals (and may fail), and that leaving the block closes the
    session. *)
Definition with_IngramFTP {A} (body : nat -> M A) : M A :=
  g <- get_globals ;;
  lift (env_connect env (host g) (user g) (passwd g)) ;;;
  ftp <- fresh_id ;;
  emit (EvOpen ftp) ;;;
  finally (body ftp) (emit (EvClose ftp)).

(** [ftp.download_file(remote_file, local_file)]: the transfer runs on the
    session and its bytes are written at the local path. *)
Definition ftp_download_file (ftp : nat) (remote_file local_file : string)
  : M unit :=
  emit (EvFetch ftp remote_file local_file) ;;;
  c <- lift (env_retr env remote_file) ;;
  write_file local_file c.

(** [ftp.get_cover_files(folder=...)], [ftp.get_onix_files()], ... *)
Definition ftp_list (ftp : nat) (c : category) (folder : option string)
  : M (list string) :=
  found <- lift (env_listing env c folder) ;;
  emit (EvList ftp c found) ;;;
  ret found.

(** [pool.terminate()] on the module global [pool]. *)
Definition pool_terminate : M unit :=
  g <- get_globals ;;
  match pool g with
  | None => raise AttributeError
  | Some p => emit (EvTerminate p)
  end.

(** Lines 104 to 116. *)
Definition download_file (remote_file download_dir : string) : M unit :=
  g <- get_globals ;;
  emit (EvCall_download_file remote_file download_dir (pool g)) ;;;
  let local_file := env_local_path env remote_file download_dir in
  with_IngramFTP (fun ftp =>
    except_KeyboardInterrupt
      (ftp_download_file ftp remote_file local_file)
      pool_terminate).

Definition nprocs : nat := processes (env_cpu_count env).

(** Lines 119 to 145.  The name [pool] bound by the [with] statement is
    local to the function: the function has no [global] declaration. *)
Definition download_data_files (download_dir : string) : M unit :=
  paths <- with_IngramFTP (fun ftp =>
    lift (env_welcome env) ;;;
    g <- get_globals ;;
    cover_paths <- ftp_list ftp Cover (cover_size g) ;;
    onix_paths <- ftp_list ftp Onix None ;;
    onix_bklst_paths <- ftp_list ftp OnixBacklist None ;;
    ref_paths <- ftp_list ftp Reference None ;;
    ret (map (fun p => (p, download_dir)) cover_paths,
         map (fun p => (p, download_dir)) onix_paths,
         map (fun p => (p, download_dir)) onix_bklst_paths,
         map (fun p => (p, download_dir)) ref_paths)) ;;
  let '(cover_paths, onix_paths, onix_bklst_paths, ref_paths) := paths in
  with_pool (fun _ =>
    starmap nprocs (uncurry download_file) cover_paths ;;;
    starmap nprocs (uncurry download_file) onix_paths ;;;
    starmap nprocs (uncurry download_file) onix_bklst_paths ;;;
    starmap nprocs (uncurry download_file) ref_paths ;;;
    ret tt).



(** Lines 148 to 158. *)
Definition extract_cover_zip (file target_dir : string) : M unit :=
  with_ZipFile file (fun zf =>
    let filenames := namelist zf in
    for_each filenames (fun f =>
      let subdir := fst (Py.splitext f) in
      let filepath := Py.join_all target_dir [Py.suffix 4 subdir; f] in
      s <- get_state ;;
      if negb (exists_path (st_fs s) filepath)
      then zip_extract zf f (Py.join target_dir (Py.suffix 4 subdir))
      else ret tt)).

(** Lines 161 to 164. *)
Definition extract_zip (file target_dir : string) : M unit :=
  with_ZipFile file (fun zf => zip_extractall zf target_dir).

(** The directory an ONIX archive is unpacked into (lines 171 and 172). *)
Definition onix_extract_dir (z download_dir working_dir : string) : string :=
  let extract_dir :=
    Py.lstrip_sep (Py.remove_all download_dir (Py.dirname z)) in
  Py.join working_dir extract_dir.

(** Lines 167 to 177. *)
Definition unzip_onix_threaded (data_zips : list string)
  (download_dir working_dir : string) : M unit :=
  let zip_args :=
    map (fun z => (z, onix_extract_dir z download_dir working_dir)) data_zips in
  with_pool (fun _ =>
    starmap nprocs (uncurry extract_zip) zip_args ;;;
    ret tt).

(** The module global [cover_size] where [os.path.join] wants a string. *)
Definition get_cover_size : M string :=
  g <- get_globals ;;
  match cover_size g with
  | None => raise TypeError
  | Some cs => ret cs
  end.

(** Lines 180 to 195; [create_shard_dirs] is the loop of lines 185 to
    187. *)
Definition create_shard_dirs (working_dir : string) : M unit :=
  for_each (Py.range 10000) (fun i =>
    cs <- get_cover_size ;;
    let dirname := Py.join_all working_dir ["Imageswk"; cs; Py.fmt04 i] in
    makedirs dirname true).

Definition unzip_covers_threaded (cover_zips : list string)
  (working_dir : string) : M unit :=
  create_shard_dirs working_dir ;;;
  cover_args <- map_m (fun z =>
    cs <- get_cover_size ;;
    ret (z, Py.join_all working_dir ["Imageswk"; cs])) cover_zips ;;
  with_pool (fun _ =>
    starmap nprocs (uncurry extract_cover_zip) cover_args ;;;
    ret tt).

Definition quote : string := String (ascii_of_nat 34) "".

(** Lines 67 to 74. *)
Definition get_config : M Config :=
  let config_file :=
    env_expanduser env "~/finderscope/config/ingram-data-services.cfg" in
  s <- get_state ;;
  if exists_path (st_fs s) config_file then lift (env_config env)
  else raise (RuntimeError (quote ++ config_file ++ quote ++ " does not exist")).

(** Lines 77 to 101; of the logging calls only the creation of the log
    directory and the opening of the log file can be seen from outside. *)
Definition setup_logger (log_file : string) : M unit :=
  let logfile := env_expanduser env log_file in
  s <- get_state ;;
  (if negb (exists_path (st_fs s) (Py.dirname logfile))
   then makedirs (Py.dirname logfile) false else ret tt) ;;;
  lift (env_open_log env logfile).

(** [utils.save_run_history()]: the call is the checkpoint; when it
    succeeds the persisted run date is the current time. *)
Definition save_run_history : M unit :=
  emit EvCheckpoint ;;;
  lift (env_save env) ;;;
  put_history (Some (env_now env)).

(** [utils.get_files_matching(dir, pattern)]. *)
Definition get_files_matching (dir pattern : string) : M (list string) :=
  s <- get_state ;;
  found <- lift (env_files_matching env (st_fs s) dir pattern) ;;
  emit (EvGlob dir pattern found) ;;;
  ret found.

(** Lines 198 to 241.  The assignments to [host], [user], [passwd] and
    [cover_size] rebind the module globals; [pool] is declared [global]
    but never assigned. *)
Definition main : M unit :=
  args <- lift (env_args env) ;;
  config <- get_config ;;
  let section := config_section args in
  let log_file := log_file args in
  h <- lift (config section "host") ;;
  g <- get_globals ;;
  put_globals (mkGlobals (Some h) (user g) (passwd g) (pool g) (cover_size g)) ;;;
  u <- lift (config section "user") ;;
  g <- get_globals ;;
  put_globals (mkGlobals (host g) (Some u) (passwd g) (pool g) (cover_size g)) ;;;
  p <- lift (config section "passwd") ;;
  g <- get_globals ;;
  put_globals (mkGlobals (host g) (user g) (Some p) (pool g) (cover_size g)) ;;;
  setup_logger log_file ;;;
  lift (env_set_log_dir env (Py.dirname log_file)) ;;;
  dd <- lift (config section "download_dir") ;;
  let download_dir := env_expanduser env dd in
  wd <- lift (config section "working_dir") ;;
  let working_dir := env_expanduser env wd in
  cs <- lift (config section "cover_size") ;;
  g <- get_globals ;;
  put_globals (mkGlobals (host g) (user g) (passwd g) (pool g) (Some cs)) ;;;
  download_data_files download_dir ;;;
  cover_zips <- get_files_matching (Py.join download_dir "Imageswk") "*.zip" ;;
  unzip_covers_threaded cover_zips working_dir ;;;
  data_zips <- get_files_matching (Py.join download_dir "ONIX") "*.zip" ;;
  unzip_onix_threaded data_zips download_dir working_dir ;;;
  data_zips <- get_files_matching (Py.join download_dir "ONIX_BKLST") "*.zip" ;;
  unzip_onix_threaded data_zips download_dir working_dir ;;;
  save_run_history.

End Program.

(** * Specification vocabulary

    ** Runs

    [wp m Q s t] says that running [m] in state [s], after the events [t],
    ends with a result, a state and a trace that satisfy [Q]. *)

Definition wp {A} (m : M A) (Q : res A -> State -> list event -> Prop)
  (s : State) (t : list event) : Prop :=
  Q (result (m s)) (final (m s)) (t ++ events (m s)).

(** The postcondition that continues with [k] after a normal return and
    stops at an exception. *)
Definition cont {A B} (k : A -> M B) (Q : res B -> State -> list event -> Prop)
  : res A -> State -> list event -> Prop :=
  fun r s t =>
    match r with
    | Ok a => wp (k a) Q s t
    | Raise e => Q (Raise e) s t
    end.

(** [inv I m]: from every state and trace that satisfy [I], the run of [m]
    ends, whatever its result, in a state and a trace that satisfy [I]. *)

Definition inv {A} (I : State -> list event -> Prop) (m : M A) : Prop :=
  forall s t, I s t -> wp m (fun _ s' t' => I s' t') s t.


(** ** The module global [pool] *)

(** What a call of [download_file] saw in the global [pool]. *)
Definition call_sees_no_pool (e : event) : Prop :=
  match e with
  | EvCall_download_file _ _ p => p = None
  | _ => True
  end.

Definition pool_unset (s : State) (t : list event) : Prop :=
  pool (st_globals s) = None /\ Forall call_sees_no_pool t.

(** ** A concrete feed

    The environments used to run the program on explicit inputs: a
    configuration with the directories [/dl] and [/w] and the cover size
    [j400w], a server that accepts every connection, and a
    [get_files_matching] that finds the files below a directory. *)

Definition sample_config : Config := fun section option =>
  if String.eqb section "default" then
    if String.eqb option "host" then Ok "ftp.example.org"
    else if String.eqb option "user" then Ok "reader"
    else if String.eqb option "passwd" then Ok "secret"
    else if String.eqb option "download_dir" then Ok "/dl"
    else if String.eqb option "working_dir" then Ok "/w"
    else if String.eqb option "cover_size" then Ok "j400w"
    else Raise (ConfigError option)
  else Raise (ConfigError section).

Definition is_file_node (kv : string * node) : bool :=
  match snd kv with File _ => true | Dir => false end.

Definition sample_files_matching (fs : FS) (dir pattern : string)
  : res (list string) :=
  Ok (List.filter (String.prefix (dir ++ "/")%string)
        (map fst (List.filter is_file_node (map_to_list fs)))).

Definition sample_env (listing : category -> list string)
  (retr : string -> res content) (cpu_count : nat) : Env :=
  {| env_args := Ok (mkArgs "default" "/var/log/ingram.log");
     env_expanduser := fun p => p;
     env_config := Ok sample_config;
     env_open_log := fun _ => Ok tt;
     env_set_log_dir := fun _ => Ok tt;
     env_connect := fun _ _ _ => Ok tt;
     env_welcome := Ok "220 ready";
     env_listing := fun c _ => Ok (listing c);
     env_retr := retr;
     env_local_path := fun remote_file download_dir =>
       (download_dir ++ remote_file)%string;
     env_files_matching := sample_files_matching;
     env_save := Ok tt;
     env_now := 20261104%N;
     env_cpu_count := cpu_count |}.

(** The file system before a first run: only the configuration file. *)
Definition sample_fs : FS :=
  {[ "~/finderscope/config/ingram-data-services.cfg" := File (Data "[default]") ]}.

(** A server whose transfer of the ONIX file is interrupted. *)
Definition interrupted_env : Env :=
  sample_env
    (fun c => match c with Onix => ["/ONIX/o1.zip"] | _ => [] end)
    (fun _ => Raise KeyboardInterrupt) 1.

(** ** The discipline of sessions

    A trace is read by an automaton.  No session is open ([Idle]) or one
    session is ([Busy]), and then it has not been used yet, has served
    listings, or has served its one transfer.  An opened session carries an
    identity that no session before it had (identities below the bound are
    taken); a listing or a transfer names the open session; a session
    serves at most one transfer, and none once it has served a listing;
    only the open session can be closed. *)

Inductive usage : Type := Unused | Listing | Transfer.

Inductive sess_state : Type :=
| Idle
| Busy (sid : nat) (u : usage).

Definition sess_step (q : sess_state * nat) (e : event)
  : option (sess_state * nat) :=
  let '(st, bound) := q in
  match e with
  | EvOpen n =>
      match st with
      | Idle => if Nat.leb bound n then Some (Busy n Unused, S n) else None
      | Busy _ _ => None
      end
  | EvList n _ _ =>
      match st with
      | Busy m Unused | Busy m Listing =>
          if Nat.eqb n m then Some (Busy m Listing, bound) else None
      | _ => None
      end
  | EvFetch n _ _ =>
      match st with
      | Busy m Unused => if Nat.eqb n m then Some (Busy m Transfer, bound) else None
      | _ => None
      end
  | EvClose n =>
      match st with
      | Busy m _ => if Nat.eqb n m then Some (Idle, bound) else None
      | Idle => None
      end
  | _ => Some q
  end.

Fixpoint sess_run (q : sess_state * nat) (t : list event)
  : option (sess_state * nat) :=
  match t with
  | [] => Some q
  | e :: t' =>
      match sess_step q e with
      | Some q' => sess_run q' t'
      | None => None
      end
  end.

(** The whole trace is accepted and ends with no session open. *)
Definition session_discipline (t : list event) : Prop :=
  exists bound, sess_run (Idle, 0) t = Some (Idle, bound).

(** The events that do not concern a session. *)
Definition session_event (e : event) : bool :=
  match e with
  | EvOpen _ | EvClose _ | EvList _ _ _ | EvFetch _ _ _ => true
  | _ => false
  end.

(** The automaton is in state [st] after [t], and the identities it has
    seen are below the next fresh identity of [s]. *)
Definition sessions_at (st : sess_state) (s : State) (t : list event) : Prop :=
  exists bound, sess_run (Idle, 0) t = Some (st, bound) /\ bound <= st_fresh s.

Definition session_busy (ftp : nat) (s : State) (t : list event) : Prop :=
  exists u, sessions_at (Busy ftp u) s t.

Definition session_listing (ftp : nat) (s : State) (t : list event) : Prop :=
  exists u, u <> Transfer /\ sessions_at (Busy ftp u) s t.

(** ** What a stage has achieved, read off the trace *)

(** A property of traces that later events cannot undo. *)
Definition monotone (T : list event -> Prop) : Prop :=
  forall t u, T t -> T (t ++ u).

(** The remote file was transferred on some session and written at its
    local path below [download_dir]. *)
Definition fetched (env : Env) (download_dir : string) (t : list event)
  (remote_file : string) : Prop :=
  exists sid,
    In (EvFetch sid remote_file (env_local_path env remote_file download_dir)) t /\
    In (EvWrite (env_local_path env remote_file download_dir)) t.

(** The category was listed and every file of the listing was fetched. *)
Definition category_downloaded (env : Env) (download_dir : string)
  (t : list event) (c : category) : Prop :=
  exists sid found,
    In (EvList sid c found) t /\
    forall r, In r found -> fetched env download_dir t r.

(** The archive was opened and closed again. *)
Definition extracted (t : list event) (zip : string) : Prop :=
  In (EvZipOpen zip) t /\ In (EvZipClose zip) t.

(** The zips below [dir] were looked up and each of them was extracted. *)
Definition directory_extracted (t : list event) (dir : string) : Prop :=
  exists found,
    In (EvGlob dir "*.zip" found) t /\
    forall z, In z found -> extracted t z.

(** The zips a run may open: those it found below one of the three
    directories it unpacks. *)
Definition unpacked_dirs (download_dir : string) : list string :=
  [Py.join download_dir "Imageswk"; Py.join download_dir "ONIX";
   Py.join download_dir "ONIX_BKLST"].

Definition zip_of_run (download_dir : string) (t : list event) (z : string)
  : Prop :=
  exists dir found,
    In dir (unpacked_dirs download_dir) /\
    In (EvGlob dir "*.zip" found) t /\ In z found.

(** Before the checkpoint: the global [pool] is unset, the run history is
    still [h], no checkpoint was attempted, and the only archives opened
    are those that [J] allows. *)
Definition quiet_event (J : string -> Prop) (e : event) : Prop :=
  call_sees_no_pool e /\ e <> EvCheckpoint /\
  forall z, e = EvZipOpen z -> J z.

Definition quiet (J : string -> Prop) (h : option N) (s : State)
  (t : list event) : Prop :=
  pool (st_globals s) = None /\ st_history s = h /\ Forall (quiet_event J) t.

(** How a run of [main] ends: it raises before the checkpoint, and then the
    run history is as it was; or its last event is the one checkpoint,
    which comes after the whole pipeline, and the run history has the new
    date exactly when the checkpoint succeeded. *)
Definition run_outcome (env : Env) (h : option N) (res : res unit)
  (s' : State) (t' : list event) : Prop :=
  (exists e, res = Raise e /\ ~ In EvCheckpoint t' /\ st_history s' = h) \/
  (exists pre download_dir,
     t' = pre ++ [EvCheckpoint] /\ ~ In EvCheckpoint pre /\
     (forall c, category_downloaded env download_dir pre c) /\
     Forall (directory_extracted pre) (unpacked_dirs download_dir) /\
     (forall z, In (EvZipOpen z) pre -> zip_of_run download_dir pre z) /\
     match res with
     | Ok _ => env_save env = Ok tt /\ st_history s' = Some (env_now env)
     | Raise e => env_save env = Raise e /\ st_history s' = h
     end).

(** A feed with one archive in each category, and the same feed when the
    configuration file is missing. *)
Definition full_listing (c : category) : list string :=
  match c with
  | Cover => ["/Imageswk/j400w/c1.zip"]
  | Onix => ["/ONIX/o1.zip"]
  | OnixBacklist => ["/ONIX_BKLST/b1.zip"]
  | Reference => ["/Reference/r1.zip"]
  end.

Definition full_retr (remote_file : string) : res content :=
  if String.eqb remote_file "/Imageswk/j400w/c1.zip"
  then Ok (Archive [("9780141439518.jpg", "jpeg bytes")])
  else Ok (Archive [("delta/a.xml", "xml bytes")]).

Definition full_env : Env := sample_env full_listing full_retr 2.

(** ** The file system across an extraction *)

(** The shard directory number [i] of line 186. *)
Definition shard_dir (working_dir cs : string) (i : N) : string :=
  Py.join_all working_dir ["Imageswk"; cs; Py.fmt04 i].

(** Every shard directory of the keyspace is there. *)
Definition shard_dirs_exist (working_dir cs : string) (fs : FS) : Prop :=
  forall i, (i < 10000)%N -> fs !! shard_dir working_dir cs i = Some Dir.


(** Only directories were added to [fs0]: in particular the files are the
    same. *)
Definition only_dirs_added (fs0 fs : FS) : Prop :=
  fs0 ⊆ fs /\ forall p c, fs !! p = Some (File c) -> fs0 !! p = Some (File c).

Definition is_makedirs (e : event) : Prop :=
  match e with EvMakedirs _ => True | _ => False end.






(** No archive [m] sits at [q]. *)
Definition no_archive (q : string) (m : list (string * string)) (s : State)
  (t : list event) : Prop :=
  st_fs s !! q <> Some (File (Archive m)).




(** ** Paths below the directory of the covers *)

(** No slash occurs in [s]. *)
Fixpoint plain (s : string) : bool :=
  match s with
  | EmptyString => true
  | String c s' => negb (Ascii.eqb c "/") && plain s'
  end.

(** The directory the covers go to, line 192. *)
Definition cover_dir (working_dir cs : string) : string :=
  Py.join_all working_dir ["Imageswk"; cs].

(** A directory name that [os.path.join] extends with a slash and that
    [os.path.dirname] gives back from a path below it. *)
Definition clean_dir (d : string) : bool :=
  negb (String.eqb d "") && negb (Py.ends_with_sep d) && negb (Py.all_sep d).

(** The state in which [main] enters the cover stage on the file system
    [fs], with the globals read from [sample_config]. *)
Definition configured_globals : Globals :=
  mkGlobals (Some "ftp.example.org") (Some "reader") (Some "secret") None
    (Some "j400w").

Definition configured_state (fs : FS) : State :=
  mkState fs configured_globals 0 None.

(** A cover archive with an entry whose name is no identifier. *)
Definition lazy_fs : FS :=
  {[ "/dl/Imageswk/j400w/c2.zip" := File (Archive [("abc.jpg", "jpeg bytes")]) ]}.

(** ** Where sharded extraction puts an entry *)


(** A working directory with the shard directory of one cover, and an
    archive with that cover. *)
Definition first_cover_fs : FS :=
  {[ "/dl/Imageswk/j400w/c1.zip" :=
       File (Archive [("9780141439518.jpg", "jpeg bytes")]);
     "/w/Imageswk/j400w/9518" := Dir ]}.

(** ** Where the extraction stages write *)




(** ** A transfer that fails *)

(** The folder a category is listed with (lines 124 to 131): the covers
    with the module global [cover_size], the others without. *)
Definition listing_folder (g : Globals) (c : category) : option string :=
  match c with
  | Cover => cover_size g
  | _ => None
  end.




(** ** A run with a reference file only *)

(** A feed whose only file is an archive of the reference category. *)
Definition reference_listing (c : category) : list string :=
  match c with
  | Reference => ["/Reference/r1.zip"]
  | _ => []
  end.

Definition reference_env : Env := sample_env reference_listing full_retr 2.

(** Every file of [fs] has a path that [P] accepts. *)
Definition all_files (P : string -> bool) (fs : FS) : bool :=
  forallb (fun kv => negb (is_file_node kv) || P (fst kv)) (map_to_list fs).

(** What a run of [main] on the reference feed comes to. *)
Definition reference_run (res : res unit) (s' : State) (t' : list event)
  : Prop :=
  res = Ok tt /\
  st_history s' = Some 20261104%N /\
  st_fs s' !! "/dl/Reference/r1.zip"
    = Some (File (Archive [("delta/a.xml", "xml bytes")])) /\
  (exists sid, In (EvFetch sid "/Reference/r1.zip" "/dl/Reference/r1.zip") t') /\
  In EvCheckpoint t' /\
  (forall z, ~ In (EvZipOpen z) t') /\
  (forall p, In (EvWrite p) t' -> p = "/dl/Reference/r1.zip").

(** ** Further vocabulary *)


(** The path of the configuration file (line 69). *)
Definition config_file (env : Env) : string :=
  env_expanduser env "~/finderscope/config/ingram-data-services.cfg".



(** The remote files that [download_file] was called for, in the order of
    the calls. *)
Definition calls (t : list event) : list string :=
  flat_map (fun e => match e with
                     | EvCall_download_file r _ _ => [r]
                     | _ => []
                     end) t.

(** A server that refuses to list the ONIX files, on the feed of
    [full_env]. *)
Definition refusing_env : Env :=
  {| env_args := env_args full_env;
     env_expanduser := env_expanduser full_env;
     env_config := env_config full_env;
     env_open_log := env_open_log full_env;
     env_set_log_dir := env_set_log_dir full_env;
     env_connect := env_connect full_env;
     env_welcome := env_welcome full_env;
     env_listing := fun c folder =>
       match c with
       | Onix => Raise (FtpError "550 no such directory")
       | _ => env_listing full_env c folder
       end;
     env_retr := env_retr full_env;
     env_local_path := env_local_path full_env;
     env_files_matching := env_files_matching full_env;
     env_save := env_save full_env;
     env_now := env_now full_env;
     env_cpu_count := env_cpu_count full_env |}.

(** What opening [file] as an archive raises when it is none. *)
Definition open_error (fs : FS) (file : string) : option exn :=
  match fs !! file with
  | None => Some (OSError "FileNotFoundError")
  | Some Dir => Some (OSError "IsADirectoryError")
  | Some (File (Data _)) => Some BadZipFile
  | Some (File (Archive _)) => None
  end.

(** No archive is at [file]. *)
Definition unreadable (file : string) (s : State) (t : list event) : Prop :=
  exists e, open_error (st_fs s) file = Some e.

(** The events of the file system. *)
Definition fs_event (e : event) : Prop :=
  match e with
  | EvMakedirs _ | EvWrite _ => True
  | _ => False
  end.

(** The events of a pool. *)
Definition pool_event (e : event) : Prop :=
  match e with
  | EvPool _ | EvTerminate _ => True
  | _ => False
  end.

(** A download directory with an ONIX archive and, beside it, a file that
    is no archive. *)
Definition broken_fs : FS :=
  {[ "/dl/ONIX/o1.zip" := File (Archive [("a.xml", "xml bytes")]);
     "/dl/ONIX/o2.zip" := File (Data "not a zip") ]}.

(** A working directory in which a file has the name of a shard
    directory. *)
Definition blocked_fs : FS :=
  {[ "/w/Imageswk/j400w/0042" := File (Data "stray") ]}.

(** Since [t0] only events that satisfy [P] were added. *)
Definition adds (P : event -> Prop) (t0 : list event) (s : State)
  (t : list event) : Prop :=
  exists u, t = t0 ++ u /\ Forall P u.

(** ** The help formatter (lines 36 to 39)

    [SortingHelpFormatter.add_arguments] hands the actions to the
    formatter of [argparse] sorted by their option strings.  Of an action
    the embedding keeps the option strings and the destination. *)
Record Action : Type := mkAction {
  option_strings : list string;
  dest : string
}.

(** [a < b] on [str]: the first character that differs decides, by its
    code; a proper prefix is smaller. *)
Fixpoint str_lt (a b : string) : bool :=
  match a, b with
  | EmptyString, EmptyString => false
  | EmptyString, String _ _ => true
  | String _ _, EmptyString => false
  | String x a', String y b' =>
      if Ascii.eqb x y then str_lt a' b'
      else (N_of_ascii x <? N_of_ascii y)%N
  end.

(** [a < b] on lists of [str]. *)
Fixpoint list_lt (a b : list string) : bool :=
  match a, b with
  | [], [] => false
  | [], _ :: _ => true
  | _ :: _, [] => false
  | x :: a', y :: b' =>
      if String.eqb x y then list_lt a' b' else str_lt x y
  end.

(** [sorted(actions, key=attrgetter("option_strings"))].  [sorted] is
    stable and compares with [<] only, which fixes its result; it is
    computed here by insertion from the right. *)
Fixpoint insert_action (x : Action) (l : list Action) : list Action :=
  match l with
  | [] => [x]
  | y :: l' =>
      if list_lt (option_strings y) (option_strings x)
      then y :: insert_action x l'
      else x :: l
  end.

Definition sorted_by_option_strings (actions : list Action) : list Action :=
  foldr insert_action [] actions.

(** The actions in the order in which the formatter of [argparse] gets
    them. *)
Definition add_arguments (actions : list Action) : list Action :=
  sorted_by_option_strings actions.

(** No action is followed by one with smaller option strings. *)
Inductive in_order : list Action -> Prop :=
| in_order_nil : in_order []
| in_order_one a : in_order [a]
| in_order_cons a b l :
    list_lt (option_strings b) (option_strings a) = false ->
    in_order (b :: l) -> in_order (a :: b :: l).

(** The events of the download stage and those of the extraction
    stages. *)
Definition download_event (e : event) : bool :=
  match e with
  | EvCall_download_file _ _ _ | EvOpen _ | EvClose _ | EvList _ _ _
  | EvFetch _ _ _ => true
  | _ => false
  end.

Definition extraction_event (e : event) : bool :=
  match e with
  | EvGlob _ _ _ | EvZipOpen _ | EvZipClose _ => true
  | _ => false
  end.

(** No event of an extraction stage has happened. *)
Definition downloading (s : State) (t : list event) : Prop :=
  Forall (fun e => extraction_event e = false) t.

(** A node of the same kind: a directory for a directory, a file for a
    file. *)
Definition same_kind (n n' : node) : bool :=
  match n, n' with
  | Dir, Dir => true
  | File _, File _ => true
  | _, _ => false
  end.

(** Every path of [fs0] is still there, with a node of the same kind. *)
Definition kept (fs0 : FS) (s : State) (t : list event) : Prop :=
  forall p n, fs0 !! p = Some n ->
    exists n', st_fs s !! p = Some n' /\ same_kind n n' = true.
(** * Rules for reasoning about runs *)

Section Rules.

Context {A B : Type}.
Implicit Types (Q : res A -> State -> list event -> Prop).

Lemma wp_conseq (m : M A) Q Q' s t :
  wp m Q s t -> (forall r s' t', Q r s' t' -> Q' r s' t') -> wp m Q' s t.
Proof. unfold wp; auto. Qed.

Lemma wp_ret (a : A) Q s t : Q (Ok a) s t -> wp (ret a) Q s t.
Proof. unfold wp; simpl. now rewrite app_nil_r. Qed.

Lemma wp_raise e Q s t : Q (Raise e) s t -> wp (raise e) Q s t.
Proof. unfold wp; simpl. now rewrite app_nil_r. Qed.

Lemma wp_lift (r : res A) Q s t : Q r s t -> wp (lift r) Q s t.
Proof. unfold wp; simpl. now rewrite app_nil_r. Qed.

Lemma wp_bind (m : M A) (k : A -> M B) (Q : res B -> State -> list event -> Prop) s t :
  wp m (cont k Q) s t -> wp (bind m k) Q s t.
Proof.
  unfold wp, cont, bind; simpl.
  destruct (result (m s)); simpl; [|auto].
  unfold wp. now rewrite app_assoc.
Qed.

Lemma wp_capture (m : M A) (Q : res (res A) -> State -> list event -> Prop) s t :
  wp m (fun r => Q (Ok r)) s t -> wp (capture m) Q s t.
Proof. unfold wp, capture; auto. Qed.

End Rules.

Lemma wp_emit e (Q : res unit -> State -> list event -> Prop) s t :
  Q (Ok tt) s (t ++ [e]) -> wp (emit e) Q s t.
Proof. unfold wp; auto. Qed.

Lemma wp_get_state (Q : res State -> State -> list event -> Prop) s t :
  Q (Ok s) s t -> wp get_state Q s t.
Proof. unfold wp; simpl. now rewrite app_nil_r. Qed.

Lemma wp_put_fs fs (Q : res unit -> State -> list event -> Prop) s t :
  Q (Ok tt) (mkState fs (st_globals s) (st_fresh s) (st_history s)) t ->
  wp (put_fs fs) Q s t.
Proof. unfold wp; simpl. now rewrite app_nil_r. Qed.

Lemma wp_put_globals g (Q : res unit -> State -> list event -> Prop) s t :
  Q (Ok tt) (mkState (st_fs s) g (st_fresh s) (st_history s)) t ->
  wp (put_globals g) Q s t.
Proof. unfold wp; simpl. now rewrite app_nil_r. Qed.

Lemma wp_put_history h (Q : res unit -> State -> list event -> Prop) s t :
  Q (Ok tt) (mkState (st_fs s) (st_globals s) (st_fresh s) h) t ->
  wp (put_history h) Q s t.
Proof. unfold wp; simpl. now rewrite app_nil_r. Qed.

Lemma wp_fresh_id (Q : res nat -> State -> list event -> Prop) s t :
  Q (Ok (st_fresh s))
    (mkState (st_fs s) (st_globals s) (S (st_fresh s)) (st_history s)) t ->
  wp fresh_id Q s t.
Proof. unfold wp; simpl. now rewrite app_nil_r. Qed.

Lemma wp_get_globals (Q : res Globals -> State -> list event -> Prop) s t :
  Q (Ok (st_globals s)) s t -> wp get_globals Q s t.
Proof. unfold wp; simpl. now rewrite app_nil_r. Qed.

Lemma wp_finally {A} (m : M A) cleanup (Q : res A -> State -> list event -> Prop) s t :
  wp m (fun r => wp cleanup (fun c s' t' =>
                   match c with Ok _ => Q r s' t' | Raise e => Q (Raise e) s' t' end))
     s t ->
  wp (finally m cleanup) Q s t.
Proof.
  intros H. unfold finally. apply wp_bind, wp_capture.
  eapply wp_conseq; [exact H|]. intros r s' t' H'. simpl.
  apply wp_bind. eapply wp_conseq; [exact H'|].
  intros [[]|e] s'' t'' H''; simpl; [now apply wp_lift|exact H''].
Qed.

Lemma wp_except_KeyboardInterrupt {A} (m handler : M A)
  (Q : res A -> State -> list event -> Prop) s t :
  wp m (fun r s' t' =>
          match r with
          | Raise KeyboardInterrupt => wp handler Q s' t'
          | _ => Q r s' t'
          end) s t ->
  wp (except_KeyboardInterrupt m handler) Q s t.
Proof.
  intros H. unfold except_KeyboardInterrupt. apply wp_bind, wp_capture.
  eapply wp_conseq; [exact H|]. intros r s' t' H'. simpl.
  destruct r as [a|[]]; try (now apply wp_lift). exact H'.
Qed.

(** *** Loops under an invariant *)

Section Invariants.

Context (I : State -> list event -> Prop).

Lemma inv_wp {A} (m : M A) (Q : res A -> State -> list event -> Prop) s t :
  inv I m -> I s t -> (forall r s' t', I s' t' -> Q r s' t') -> wp m Q s t.
Proof. intros Hm HI HQ. eapply wp_conseq; [apply Hm, HI|]. auto. Qed.

Lemma inv_ret {A} (a : A) : inv I (ret a).
Proof. intros s t H. now apply wp_ret. Qed.

Lemma inv_raise {A} e : inv I (@raise A e).
Proof. intros s t H. now apply wp_raise. Qed.

Lemma inv_lift {A} (r : res A) : inv I (lift r).
Proof. intros s t H. now apply wp_lift. Qed.

Lemma inv_get_state : inv I get_state.
Proof. intros s t H. now apply wp_get_state. Qed.

Lemma inv_bind {A B} (m : M A) (k : A -> M B) :
  inv I m -> (forall a, inv I (k a)) -> inv I (bind m k).
Proof.
  intros Hm Hk s t H. apply wp_bind. eapply inv_wp; eauto.
  intros [a|e] s' t' H'; simpl; [now apply Hk|exact H'].
Qed.

Lemma inv_capture {A} (m : M A) : inv I m -> inv I (capture m).
Proof. intros Hm s t H. apply wp_capture. now apply Hm. Qed.

Lemma inv_finally {A} (m : M A) cleanup :
  inv I m -> inv I cleanup -> inv I (finally m cleanup).
Proof.
  intros Hm Hc. unfold finally.
  apply inv_bind; [now apply inv_capture|]. intros r.
  apply inv_bind; [exact Hc|]. intros _. apply inv_lift.
Qed.

Lemma inv_except_KeyboardInterrupt {A} (m handler : M A) :
  inv I m -> inv I handler -> inv I (except_KeyboardInterrupt m handler).
Proof.
  intros Hm Hh. unfold except_KeyboardInterrupt.
  apply inv_bind; [now apply inv_capture|].
  intros [a|[]]; auto using inv_lift.
Qed.

Lemma inv_for_each {A} (l : list A) (body : A -> M unit) :
  (forall x, In x l -> inv I (body x)) -> inv I (for_each l body).
Proof.
  induction l as [|x l IH]; intros Hb; simpl.
  - apply inv_ret.
  - apply inv_bind; [apply Hb; now left|].
    intros _. apply IH. intros y Hy. apply Hb. now right.
Qed.

Lemma inv_map_m {A B} (f : A -> M B) (l : list A) :
  (forall x, In x l -> inv I (f x)) -> inv I (map_m f l).
Proof.
  induction l as [|x l IH]; intros Hf; simpl.
  - apply inv_ret.
  - apply inv_bind; [apply Hf; now left|]. intros y.
    apply inv_bind; [apply IH; intros z Hz; apply Hf; now right|].
    intros ys. apply inv_ret.
Qed.

Lemma inv_run_chunks {A B} (f : A -> M B) (chunks : list (list A)) :
  (forall c x, In c chunks -> In x c -> inv I (f x)) ->
  inv I (run_chunks f chunks).
Proof.
  induction chunks as [|c chunks IH]; intros Hf; simpl.
  - apply inv_ret.
  - apply inv_bind.
    + apply inv_capture, inv_map_m. intros x Hx. apply (Hf c x); [now left|exact Hx].
    + intros r. apply inv_bind.
      * apply IH. intros c' x Hc' Hx. apply (Hf c' x); [now right|exact Hx].
      * intros rs. apply inv_ret.
Qed.

End Invariants.

(** *** The chunks of a pool *)

Lemma chunksize_pos len n : 0 < len -> 0 < chunksize len n.
Proof.
  unfold chunksize. intros H.
  destruct (Nat.eqb_spec len 0) as [->|_]; [lia|].
  destruct (Nat.eqb_spec (len mod (n * 4)) 0) as [E|_]; [|lia].
  destruct (Nat.eq_dec (n * 4) 0) as [Z|NZ].
  - rewrite Z in E. simpl in E. lia.
  - pose proof (Nat.div_mod_eq len (n * 4)) as D. rewrite E in D.
    destruct (len / (n * 4)); lia.
Qed.

Lemma get_tasks_In {A} fuel size (l c : list A) x :
  In c (get_tasks fuel size l) -> In x c -> In x l.
Proof.
  revert l. induction fuel as [|fuel IH]; intros l; simpl; [tauto|].
  destruct (firstn size l) as [|y ys] eqn:E; simpl; [tauto|].
  intros [<-|Hc] Hx.
  - rewrite <- (firstn_skipn size l). apply in_or_app. left. now rewrite E.
  - rewrite <- (firstn_skipn size l). apply in_or_app. right. eauto.
Qed.

Lemma get_tasks_concat {A} fuel size (l : list A) :
  0 < size -> length l < fuel -> concat (get_tasks fuel size l) = l.
Proof.
  intros Hs. revert l. induction fuel as [|fuel IH]; intros l Hl; [lia|].
  simpl. destruct (firstn size l) as [|y ys] eqn:E.
  - destruct l as [|z l]; [reflexivity|].
    destruct size; [lia|discriminate].
  - cbn [concat]. rewrite IH.
    + rewrite <- E. apply firstn_skipn.
    + rewrite length_skipn. destruct l; [destruct size; discriminate|simpl in *; lia].
Qed.

Lemma starmap_tasks_concat {A} n (l : list A) :
  concat (get_tasks (S (length l)) (chunksize (length l) n) l) = l.
Proof.
  destruct l as [|x l]; [reflexivity|].
  apply get_tasks_concat; [apply chunksize_pos; simpl; lia|lia].
Qed.

Section PoolInvariants.

Context (I : State -> list event -> Prop).

Lemma inv_starmap {A B} n (f : A -> M B) (l : list A) :
  (forall x, In x l -> inv I (f x)) -> inv I (starmap n f l).
Proof.
  intros Hf. unfold starmap. apply inv_bind.
  - apply inv_run_chunks. intros c x Hc Hx. apply Hf. eapply get_tasks_In; eauto.
  - intros r. apply inv_lift.
Qed.

Lemma inv_with_pool {A} (body : nat -> M A) :
  inv I fresh_id ->
  (forall pid, inv I (emit (EvPool pid))) ->
  (forall pid, inv I (emit (EvTerminate pid))) ->
  (forall pid, inv I (body pid)) ->
  inv I (with_pool body).
Proof.
  intros Hf Hp Ht Hb. unfold with_pool.
  apply inv_bind; [exact Hf|]. intros pid.
  apply inv_bind; [apply Hp|]. intros _.
  apply inv_finally; [apply Hb|apply Ht].
Qed.

End PoolInvariants.

(** *** When every task of a pool call returns

    [D x] is what a task leaves behind when it returns normally; it must
    survive the tasks that follow. *)

Section AllDone.

Context {A B : Type}.
Context (I : State -> list event -> Prop).
Context (D : A -> State -> list event -> Prop).
Context (f : A -> M B).

Lemma wp_map_m_all (l : list A) :
  (forall x, In x l -> forall s t, I s t ->
     wp (f x) (fun r s' t' =>
       I s' t' /\ (forall y, D y s t -> D y s' t') /\
       (forall b, r = Ok b -> D x s' t')) s t) ->
  forall s t, I s t ->
  wp (map_m f l) (fun r s' t' =>
    I s' t' /\ (forall y, D y s t -> D y s' t') /\
    (forall b, r = Ok b -> forall x, In x l -> D x s' t')) s t.
Proof.
  induction l as [|x l IH]; intros Hf s t HI; simpl.
  - apply wp_ret. repeat split; auto. intros _ _ y [].
  - apply wp_bind. eapply wp_conseq; [apply Hf; [now left|exact HI]|].
    intros [b|e] s1 t1 (HI1 & Hst1 & HD1); simpl; [|repeat split; auto; discriminate].
    apply wp_bind. eapply wp_conseq; [apply IH; [|exact HI1]|].
    { intros y Hy. apply Hf. now right. }
    intros [bs|e] s2 t2 (HI2 & Hst2 & HD2); simpl; [|repeat split; auto; discriminate].
    apply wp_ret. repeat split; auto.
    intros _ _ y [<-|Hy]; [apply Hst2; eauto|eapply HD2; eauto].
Qed.

Lemma wp_run_chunks_all (chunks : list (list A)) :
  (forall c x, In c chunks -> In x c -> forall s t, I s t ->
     wp (f x) (fun r s' t' =>
       I s' t' /\ (forall y, D y s t -> D y s' t') /\
       (forall b, r = Ok b -> D x s' t')) s t) ->
  forall s t, I s t ->
  wp (run_chunks f chunks) (fun r s' t' =>
    I s' t' /\ (forall y, D y s t -> D y s' t') /\
    (exists v, r = Ok v) /\
    (forall bs, r = Ok (Ok bs) -> forall x, In x (concat chunks) -> D x s' t')) s t.
Proof.
  induction chunks as [|c chunks IH]; intros Hf s t HI; simpl.
  - apply wp_ret. repeat split; eauto. intros _ _ y [].
  - apply wp_bind, wp_capture.
    eapply wp_conseq; [apply wp_map_m_all; [|exact HI]|].
    { intros x Hx. apply (Hf c x); [now left|exact Hx]. }
    intros r s1 t1 (HI1 & Hst1 & HD1); simpl.
    apply wp_bind. eapply wp_conseq; [apply IH; [|exact HI1]|].
    { intros c' x Hc' Hx. apply (Hf c' x); [now right|exact Hx]. }
    intros rs s2 t2 (HI2 & Hst2 & [v ->] & HD2); simpl.
    apply wp_ret. repeat split; eauto.
    intros bs E x Hx. destruct r as [b|e]; [|discriminate].
    destruct v as [bs'|e]; [|discriminate].
    apply in_app_or in Hx as [Hx|Hx]; [apply Hst2; eauto|eapply HD2; eauto].
Qed.

Lemma wp_starmap_all n (l : list A) :
  (forall x, In x l -> forall s t, I s t ->
     wp (f x) (fun r s' t' =>
       I s' t' /\ (forall y, D y s t -> D y s' t') /\
       (forall b, r = Ok b -> D x s' t')) s t) ->
  forall s t, I s t ->
  wp (starmap n f l) (fun r s' t' =>
    I s' t' /\ (forall y, D y s t -> D y s' t') /\
    (forall bs, r = Ok bs -> forall x, In x l -> D x s' t')) s t.
Proof.
  intros Hf s t HI. unfold starmap. apply wp_bind.
  eapply wp_conseq; [apply wp_run_chunks_all; [|exact HI]|].
  { intros c x Hc Hx. apply Hf. eapply get_tasks_In; eauto. }
  intros r s1 t1 (HI1 & Hst1 & [v ->] & HD1); simpl.
  apply wp_lift. repeat split; auto.
  intros bs -> x Hx. eapply HD1; [reflexivity|].
  now rewrite starmap_tasks_concat.
Qed.

End AllDone.

(** *** Symbolic execution *)

Ltac wp_prim :=
  lazymatch goal with
  | |- wp (bind _ _) _ _ _ => apply wp_bind
  | |- wp (ret _) _ _ _ => apply wp_ret
  | |- wp (raise _) _ _ _ => apply wp_raise
  | |- wp (lift _) _ _ _ => apply wp_lift
  | |- wp (emit _) _ _ _ => apply wp_emit
  | |- wp get_state _ _ _ => apply wp_get_state
  | |- wp get_globals _ _ _ => apply wp_get_globals
  | |- wp (put_fs _) _ _ _ => apply wp_put_fs
  | |- wp (put_globals _) _ _ _ => apply wp_put_globals
  | |- wp (put_history _) _ _ _ => apply wp_put_history
  | |- wp fresh_id _ _ _ => apply wp_fresh_id
  | |- wp (capture _) _ _ _ => apply wp_capture
  | |- wp (finally _ _) _ _ _ => apply wp_finally
  | |- wp (except_KeyboardInterrupt _ _) _ _ _ =>
      apply wp_except_KeyboardInterrupt
  | |- wp (match ?x with _ => _ end) _ _ _ => destruct x eqn:?
  | |- cont _ _ (Ok _) _ _ => unfold cont at 1
  | |- cont _ _ (Raise _) _ _ => unfold cont at 1
  | |- cont _ _ ?r _ _ => destruct r eqn:?
  | |- match ?x with _ => _ end => destruct x eqn:?
  end; cbv beta iota;
  cbn [st_fs st_globals st_fresh st_history host user passwd pool cover_size].

Ltac wp_run := repeat wp_prim.

(** Proves [inv I m] for code built from the monad's combinators, given
    hints of the database [inv] for the calls it makes. *)
Create HintDb inv discriminated.

Ltac inv_step :=
  lazymatch goal with
  | |- inv _ (ret _) => apply inv_ret
  | |- inv _ (raise _) => apply inv_raise
  | |- inv _ (lift _) => apply inv_lift
  | |- inv _ get_state => apply inv_get_state
  | |- inv _ (capture _) => apply inv_capture
  | |- inv _ (finally _ _) => apply inv_finally
  | |- inv _ (except_KeyboardInterrupt _ _) =>
      apply inv_except_KeyboardInterrupt
  | |- inv _ (for_each _ _) => apply inv_for_each; intros ? _
  | |- inv _ (map_m _ _) => apply inv_map_m; intros ? _
  | |- inv _ (starmap _ _ _) => apply inv_starmap; intros ? _
  | |- inv _ (with_pool _) =>
      apply inv_with_pool; [| intros ? | intros ? | intros ?]
  | |- inv _ (bind _ _) => apply inv_bind; [|intros ?]
  | |- inv _ (uncurry _ ?x) => destruct x; unfold uncurry
  | |- inv _ (match ?x with _ => _ end) => destruct x
  | |- inv _ _ => solve [eauto with inv]
  end.

Ltac inv_auto := repeat inv_step.

(** *** Invariants through the stages of the program

    An invariant that does not look at the file system nor at the counter
    of identities, and that tolerates the events of the pools and of the
    extraction, passes through every stage but the downloads and the
    checkpoint, which are left to the invariant at hand. *)

Section Stages.

Context (env : Env).
Context (I : State -> list event -> Prop).

Hypothesis I_fs : forall s t fs,
  I s t -> I (mkState fs (st_globals s) (st_fresh s) (st_history s)) t.
Hypothesis I_fresh : forall s t,
  I s t -> I (mkState (st_fs s) (st_globals s) (S (st_fresh s)) (st_history s)) t.
Hypothesis I_globals : forall s t g,
  I s t -> pool g = pool (st_globals s) ->
  I (mkState (st_fs s) g (st_fresh s) (st_history s)) t.
Hypothesis I_makedirs : forall s t p, I s t -> I s (t ++ [EvMakedirs p]).
Hypothesis I_write : forall s t p, I s t -> I s (t ++ [EvWrite p]).
Hypothesis I_zip_open : forall s t p, I s t -> I s (t ++ [EvZipOpen p]).
Hypothesis I_zip_close : forall s t p, I s t -> I s (t ++ [EvZipClose p]).
Hypothesis I_pool : forall s t p, I s t -> I s (t ++ [EvPool p]).
Hypothesis I_terminate : forall s t p, I s t -> I s (t ++ [EvTerminate p]).
Hypothesis I_glob : forall s t d p f, I s t -> I s (t ++ [EvGlob d p f]).

(** For the download stage: the invariant tolerates the events of the
    sessions and the call of [download_file]. *)
Hypothesis I_open : forall s t n, I s t -> I s (t ++ [EvOpen n]).
Hypothesis I_close : forall s t n, I s t -> I s (t ++ [EvClose n]).
Hypothesis I_list : forall s t n c f, I s t -> I s (t ++ [EvList n c f]).
Hypothesis I_fetch : forall s t n r l, I s t -> I s (t ++ [EvFetch n r l]).
Hypothesis I_call : forall s t r d,
  I s t -> I s (t ++ [EvCall_download_file r d (pool (st_globals s))]).

(** For the checkpoint. *)
Hypothesis I_checkpoint : forall s t, I s t -> I s (t ++ [EvCheckpoint]).
Hypothesis I_history : forall s t h,
  I s t -> I (mkState (st_fs s) (st_globals s) (st_fresh s) h) t.

Lemma stage_put_fs fs : inv I (put_fs fs).
Proof. intros s t H. apply wp_put_fs. now apply I_fs. Qed.

Lemma stage_fresh_id : inv I fresh_id.
Proof. intros s t H. apply wp_fresh_id. now apply I_fresh. Qed.

Lemma stage_emit_makedirs p : inv I (emit (EvMakedirs p)).
Proof. intros s t H. apply wp_emit. now apply I_makedirs. Qed.

Lemma stage_emit_write p : inv I (emit (EvWrite p)).
Proof. intros s t H. apply wp_emit. now apply I_write. Qed.

Lemma stage_emit_zip_open p : inv I (emit (EvZipOpen p)).
Proof. intros s t H. apply wp_emit. now apply I_zip_open. Qed.

Lemma stage_emit_zip_close p : inv I (emit (EvZipClose p)).
Proof. intros s t H. apply wp_emit. now apply I_zip_close. Qed.

Lemma stage_emit_pool p : inv I (emit (EvPool p)).
Proof. intros s t H. apply wp_emit. now apply I_pool. Qed.

Lemma stage_emit_terminate p : inv I (emit (EvTerminate p)).
Proof. intros s t H. apply wp_emit. now apply I_terminate. Qed.

Lemma stage_emit_glob d p f : inv I (emit (EvGlob d p f)).
Proof. intros s t H. apply wp_emit. now apply I_glob. Qed.

#[local] Hint Resolve stage_put_fs stage_fresh_id stage_emit_makedirs
  stage_emit_write stage_emit_zip_open stage_emit_zip_close stage_emit_pool
  stage_emit_terminate stage_emit_glob : inv.

Lemma stage_makedirs p exist_ok : inv I (makedirs p exist_ok).
Proof. unfold makedirs. inv_auto. Qed.

Lemma stage_write_file p c : inv I (write_file p c).
Proof. unfold write_file. inv_auto. Qed.

#[local] Hint Resolve stage_makedirs stage_write_file : inv.

Lemma stage_get_globals : inv I get_globals.
Proof. unfold get_globals. inv_auto. Qed.

#[local] Hint Resolve stage_get_globals : inv.

Lemma stage_with_ZipFile {A} file (body : list (string * string) -> M A) :
  (forall zf, inv I (body zf)) -> inv I (with_ZipFile file body).
Proof. intros Hb. unfold with_ZipFile, zip_open. inv_auto. Qed.

Lemma stage_zip_extract zf name path : inv I (zip_extract zf name path).
Proof. unfold zip_extract. inv_auto. Qed.

#[local] Hint Resolve stage_zip_extract : inv.

Lemma stage_extract_cover_zip file target :
  inv I (extract_cover_zip file target).
Proof. unfold extract_cover_zip. apply stage_with_ZipFile. intros zf. inv_auto. Qed.

Lemma stage_extract_zip file target : inv I (extract_zip file target).
Proof.
  unfold extract_zip, zip_extractall. apply stage_with_ZipFile.
  intros zf. inv_auto.
Qed.

#[local] Hint Resolve stage_extract_cover_zip stage_extract_zip : inv.

Lemma stage_unzip_onix_threaded zips d w :
  inv I (unzip_onix_threaded env zips d w).
Proof. unfold unzip_onix_threaded. inv_auto. Qed.

Lemma stage_create_shard_dirs w : inv I (create_shard_dirs w).
Proof. unfold create_shard_dirs, get_cover_size. inv_auto. Qed.

Lemma stage_unzip_covers_threaded zips w :
  inv I (unzip_covers_threaded env zips w).
Proof.
  unfold unzip_covers_threaded, get_cover_size. inv_auto.
  apply stage_create_shard_dirs.
Qed.

Lemma stage_get_files_matching d p : inv I (get_files_matching env d p).
Proof. unfold get_files_matching. inv_auto. Qed.

Lemma stage_get_config : inv I (get_config env).
Proof. unfold get_config. inv_auto. Qed.

Lemma stage_setup_logger f : inv I (setup_logger env f).
Proof. unfold setup_logger. inv_auto. Qed.

Lemma stage_set_global (f : Globals -> Globals) :
  (forall g, pool (f g) = pool g) ->
  inv I (bind get_globals (fun g => put_globals (f g))).
Proof.
  intros Hf s t H. wp_run. apply I_globals; [exact H|apply Hf].
Qed.

#[local] Hint Resolve stage_unzip_onix_threaded stage_unzip_covers_threaded
  stage_get_files_matching stage_get_config stage_setup_logger : inv.

(** Everything [main] does before the checkpoint, and the checkpoint. *)
Lemma stage_main :
  (forall d, inv I (download_data_files env d)) ->
  inv I (save_run_history env) ->
  inv I (main env).
Proof.
  intros Hd Hs s t H. unfold main.
  repeat first
    [ wp_prim
    | eapply inv_wp;
      [ solve [eauto with inv]
      | first [ assumption
              | apply I_glob; assumption
              | apply I_globals; [assumption|reflexivity] ]
      | intros ? ? ? ? ] ];
  first [ assumption
        | apply I_glob; assumption
        | apply I_globals; [assumption|reflexivity] ].
Qed.

Lemma stage_with_IngramFTP {A} (body : nat -> M A) :
  (forall ftp, inv I (body ftp)) -> inv I (with_IngramFTP env body).
Proof.
  intros Hb. unfold with_IngramFTP. inv_auto; intros s t H.
  all: apply wp_emit; first [now apply I_open | now apply I_close].
Qed.

Lemma stage_download_file r d : inv I (download_file env r d).
Proof.
  intros s t H. unfold download_file. wp_run.
  eapply inv_wp; [| |intros ? ? ? H'; exact H'].
  - apply stage_with_IngramFTP. intros ftp.
    unfold ftp_download_file, pool_terminate. inv_auto.
    intros s' t' H'. apply wp_emit. now apply I_fetch.
  - now apply I_call.
Qed.

Lemma stage_ftp_list ftp c folder : inv I (ftp_list env ftp c folder).
Proof.
  unfold ftp_list. inv_auto. intros s t H. apply wp_emit. now apply I_list.
Qed.

#[local] Hint Resolve stage_download_file stage_ftp_list : inv.

Lemma stage_download_data_files d : inv I (download_data_files env d).
Proof.
  unfold download_data_files. apply inv_bind.
  - apply stage_with_IngramFTP. intros ftp. inv_auto.
  - intros [[[cp op] bp] rp]. inv_auto.
Qed.

Lemma stage_save_run_history : inv I (save_run_history env).
Proof.
  unfold save_run_history. inv_auto; intros s t H.
  all: first [ apply wp_emit; now apply I_checkpoint
             | apply wp_put_history; now apply I_history ].
Qed.

Lemma stage_main_all : inv I (main env).
Proof.
  apply stage_main; [apply stage_download_data_files|apply stage_save_run_history].
Qed.

End Stages.
(** * Properties

    ** The path functions on the names the feed uses *)

Example suffix_isbn : Py.suffix 4 "9780141439518" = "9518".
Proof. reflexivity. Qed.
Example suffix_short : Py.suffix 4 "abc" = "abc".
Proof. reflexivity. Qed.
Example splitext_isbn :
  Py.splitext "9780141439518.jpg" = ("9780141439518", ".jpg").
Proof. reflexivity. Qed.
Example splitext_hidden : Py.splitext "a/.profile" = ("a/.profile", "").
Proof. reflexivity. Qed.
Example splitext_dir : Py.splitext "a.b/c" = ("a.b/c", "").
Proof. reflexivity. Qed.
Example join_plain : Py.join_all "/w" ["Imageswk"; "j400w"; "0042"] = "/w/Imageswk/j400w/0042".
Proof. reflexivity. Qed.
Example join_abs : Py.join_all "/w" ["/x"; "y"] = "/x/y".
Proof. reflexivity. Qed.
Example dirname_zip : Py.dirname "/dl/ONIX/delta/a.zip" = "/dl/ONIX/delta".
Proof. reflexivity. Qed.
Example dirname_root : Py.dirname "/a.zip" = "/".
Proof. reflexivity. Qed.
Example dirname_none : Py.dirname "a.zip" = "".
Proof. reflexivity. Qed.
Example remove_all_prefix : Py.lstrip_sep (Py.remove_all "/dl" "/dl/ONIX/delta") = "ONIX/delta".
Proof. reflexivity. Qed.
Example fmt04_small : map Py.fmt04 [0; 7; 42; 999; 9999; 12345]%N
  = ["0000"; "0007"; "0042"; "0999"; "9999"; "12345"].
Proof. reflexivity. Qed.


(** ** The module global [pool] is never bound *)

Lemma pool_unset_snoc s t e :
  call_sees_no_pool e -> pool_unset s t -> pool_unset s (t ++ [e]).
Proof.
  intros He [Hp Ht]. split; [exact Hp|].
  apply Forall_app. split; [exact Ht|]. now constructor.
Qed.

Lemma pool_unset_main (env : Env) : inv pool_unset (main env).
Proof.
  apply stage_main_all;
    try (intros; apply pool_unset_snoc; [exact Logic.I|assumption]);
    try (intros ? ? ? [? ?]; now split).
  - intros s t [Hp Ht]. now split.
  - intros s t g [Hp Ht] Hg. split; [|exact Ht]. simpl. congruence.
  - intros s t r d H. apply pool_unset_snoc; [|exact H]. apply H.
Qed.

Lemma pool_unset_download_file env r d :
  inv pool_unset (download_file env r d).
Proof.
  apply stage_download_file;
    try (intros; apply pool_unset_snoc; [exact Logic.I|assumption]);
    try (intros ? ? ? [? ?]; now split).
  - intros s t [Hp Ht]. now split.
  - intros s t r' d' H. apply pool_unset_snoc; [|exact H]. apply H.
Qed.

(** C9: at every call of [download_file] in a run of [main] the module
    global [pool] is still [None] (the global is never assigned: [main]
    leaves it as the module bound it, and the pools of [with] blocks are
    local names); so when a transfer raises [KeyboardInterrupt], the
    handler's [pool.terminate()] fails with [AttributeError] on [None] and
    terminates no pool. *)
Theorem C9_pool_is_None_at_every_download_call (env : Env) (fs : FS) (h : option N) :
  let o := main env (initial_state fs h) in
  Forall call_sees_no_pool (events o) /\
  pool (st_globals (final o)) = None /\
  forall (s : State) (remote_file download_dir : string),
    pool (st_globals s) = None ->
    env_connect env (host (st_globals s)) (user (st_globals s))
      (passwd (st_globals s)) = Ok tt ->
    env_retr env remote_file = Raise KeyboardInterrupt ->
    let o' := download_file env remote_file download_dir s in
    result o' = Raise AttributeError /\
    forall pid, ~ In (EvTerminate pid) (events o').
Proof.
  intros o.
  assert (H : pool_unset (final o) ([] ++ events o)).
  { apply (pool_unset_main env (initial_state fs h) []). split; [reflexivity|constructor]. }
  destruct H as [Hp Ht]. split; [exact Ht|]. split; [exact Hp|].
  intros s r d Hs Hc Hr o'.
  assert (W : wp (download_file env r d)
                (fun x _ t' => x = Raise AttributeError /\
                   forall pid, ~ In (EvTerminate pid) t') s []).
  { unfold download_file, with_IngramFTP, ftp_download_file, pool_terminate.
    repeat (wp_prim; rewrite ?Hc, ?Hr, ?Hs); try congruence.
    split; [reflexivity|]. intros pid. simpl.
    intros [E|[E|[E|[E|[]]]]]; discriminate. }
  exact W.
Qed.

Lemma C9_witness :
  result (download_file interrupted_env "/ONIX/o1.zip" "/dl"
            (initial_state sample_fs None)) = Raise AttributeError.
Proof.
  refine (proj1 (proj2 (proj2
    (C9_pool_is_None_at_every_download_call interrupted_env sample_fs None))
    (initial_state sample_fs None) "/ONIX/o1.zip" "/dl" _ _ _));
  reflexivity.
Defined.

(** ** One session per transfer *)

Lemma sess_run_app q t u :
  sess_run q (t ++ u) =
  match sess_run q t with Some q' => sess_run q' u | None => None end.
Proof.
  revert q. induction t as [|e t IH]; intros q; simpl; [reflexivity|].
  destruct (sess_step q e); [apply IH|reflexivity].
Qed.

Lemma sess_step_other q e : session_event e = false -> sess_step q e = Some q.
Proof. destruct q as [st b], e; simpl; intros H; congruence. Qed.

Lemma sessions_at_snoc st s t e :
  session_event e = false -> sessions_at st s t -> sessions_at st s (t ++ [e]).
Proof.
  intros He (b & Hr & Hb). exists b. split; [|exact Hb].
  rewrite sess_run_app, Hr. cbn [sess_run]. now rewrite sess_step_other.
Qed.

Lemma session_busy_snoc ftp s t e :
  session_event e = false -> session_busy ftp s t -> session_busy ftp s (t ++ [e]).
Proof. intros He [u H]. exists u. now apply sessions_at_snoc. Qed.

Lemma session_listing_snoc ftp s t e :
  session_event e = false ->
  session_listing ftp s t -> session_listing ftp s (t ++ [e]).
Proof. intros He (u & Hu & H). exists u. split; [exact Hu|]. now apply sessions_at_snoc. Qed.

Section Sessions.

Context (env : Env).

(** Inside a session, the code that does not talk to the server. *)
Lemma session_busy_write_file ftp p c : inv (session_busy ftp) (write_file p c).
Proof.
  apply stage_write_file.
  - intros s t fs [u (b & H & Hb)]. exists u, b. now split.
  - intros s t q H. now apply session_busy_snoc.
Qed.

Lemma session_busy_pool_terminate ftp : inv (session_busy ftp) pool_terminate.
Proof.
  unfold pool_terminate, get_globals. inv_auto.
  intros s t H. apply wp_emit. now apply session_busy_snoc.
Qed.

Lemma session_ftp_download_file ftp r l s t :
  sessions_at (Busy ftp Unused) s t ->
  wp (ftp_download_file env ftp r l) (fun _ s' t' => session_busy ftp s' t') s t.
Proof.
  intros (b & H & Hb). unfold ftp_download_file. wp_run.
  - eapply inv_wp; [apply session_busy_write_file| |intros ? ? ? H'; exact H'].
    exists Transfer, b. split; [|exact Hb].
    rewrite sess_run_app, H. simpl. now rewrite Nat.eqb_refl.
  - exists Transfer, b. split; [|exact Hb].
    rewrite sess_run_app, H. simpl. now rewrite Nat.eqb_refl.
Qed.

Lemma session_ftp_list ftp c folder :
  inv (session_listing ftp) (ftp_list env ftp c folder).
Proof.
  intros s t (u & Hu & b & H & Hb). unfold ftp_list. wp_run.
  - exists Listing. split; [discriminate|]. exists b. split; [|exact Hb].
    rewrite sess_run_app, H. simpl.
    destruct u; try congruence; now rewrite Nat.eqb_refl.
  - exists u. split; [exact Hu|]. now exists b.
Qed.

(** A [with IngramFTP(...)] block whose body keeps to the session it was
    given opens a session of its own and closes it on every exit. *)
Lemma sessions_with_IngramFTP {A} (body : nat -> M A) :
  (forall ftp s t, sessions_at (Busy ftp Unused) s t ->
     wp (body ftp) (fun _ s' t' => session_busy ftp s' t') s t) ->
  inv (sessions_at Idle) (with_IngramFTP env body).
Proof.
  intros Hb s t (b & H & Hle). unfold with_IngramFTP. wp_run.
  - eapply wp_conseq.
    + apply Hb. exists (S (st_fresh s)). split; [|simpl; lia].
      rewrite sess_run_app, H. simpl.
      destruct (Nat.leb_spec b (st_fresh s)); [reflexivity|lia].
    + intros r s' t' [u (b' & H' & Hle')]. wp_run.
      exists b'. split; [|exact Hle'].
      rewrite sess_run_app, H'. simpl. now rewrite Nat.eqb_refl.
  - now exists b.
Qed.

Lemma sessions_download_file r d : inv (sessions_at Idle) (download_file env r d).
Proof.
  intros s t H. unfold download_file. wp_run.
  eapply inv_wp; [| |intros ? ? ? H'; exact H'].
  - apply sessions_with_IngramFTP. intros ftp s' t' H'.
    apply wp_except_KeyboardInterrupt.
    eapply wp_conseq; [apply session_ftp_download_file, H'|].
    intros [a|[]] s'' t'' H''; try exact H''.
    now apply session_busy_pool_terminate.
  - now apply sessions_at_snoc.
Qed.

Lemma sessions_fresh_id : inv (sessions_at Idle) fresh_id.
Proof.
  intros s t (b & H & Hb). apply wp_fresh_id. exists b. split; [exact H|simpl; lia].
Qed.

Lemma sessions_emit e : session_event e = false -> inv (sessions_at Idle) (emit e).
Proof. intros He s t H. apply wp_emit. now apply sessions_at_snoc. Qed.

#[local] Hint Resolve sessions_download_file sessions_fresh_id : inv.
#[local] Hint Extern 1 (inv (sessions_at Idle) (emit _)) =>
  apply sessions_emit; reflexivity : inv.

Lemma sessions_download_data_files d :
  inv (sessions_at Idle) (download_data_files env d).
Proof.
  unfold download_data_files. apply inv_bind.
  - apply sessions_with_IngramFTP. intros ftp s t H.
    assert (HL : session_listing ftp s t) by (exists Unused; split; [discriminate|exact H]).
    apply (inv_wp (session_listing ftp)); [|exact HL|].
    + unfold get_globals. inv_auto; apply session_ftp_list.
    + intros r s' t' (u & _ & H'). now exists u.
  - intros [[[cp op] bp] rp]. inv_auto.
Qed.

Lemma sessions_main : inv (sessions_at Idle) (main env).
Proof.
  apply stage_main.
  all: try (intros; apply sessions_at_snoc; [reflexivity|assumption]).
  all: try (intros ? ? ? (b & ? & ?); exists b; now split).
  - intros s t (b & H & Hb). exists b. split; [exact H|simpl; lia].
  - apply sessions_download_data_files.
  - apply stage_save_run_history.
    + intros s t H. now apply sessions_at_snoc.
    + intros s t h (b & H & Hb). exists b. now split.
Qed.

End Sessions.

(** C7: every file transfer opens a fresh session of its own, uses it for
    exactly that one transfer and closes it on every exit path, also when
    the transfer raises; no session is shared or used for a second item.
    Whatever the environment does and whatever the result, the session
    events of one call of [download_file] are: open a session with a fresh
    identity, one transfer on it, close it (or nothing at all when the
    connection is refused); and the trace of a whole run of
    [download_data_files] or of [main] is accepted by the automaton of
    sessions and ends with no session open. *)
Theorem C7_one_fresh_session_per_transfer (env : Env) (s : State) :
  (forall remote_file download_dir : string,
     let g := st_globals s in
     let ftp := st_fresh s in
     List.filter session_event
       (events (download_file env remote_file download_dir s)) =
     match env_connect env (host g) (user g) (passwd g) with
     | Ok _ =>
         [EvOpen ftp;
          EvFetch ftp remote_file (env_local_path env remote_file download_dir);
          EvClose ftp]
     | Raise _ => []
     end) /\
  (forall download_dir : string,
     session_discipline (events (download_data_files env download_dir s))) /\
  session_discipline (events (main env s)).
Proof.
  assert (H0 : sessions_at Idle s []) by (exists 0; split; [reflexivity|lia]).
  split; [|split].
  - intros r d g ftp.
    assert (W : wp (download_file env r d)
      (fun _ _ t' => List.filter session_event t' =
         match env_connect env (host g) (user g) (passwd g) with
         | Ok _ => [EvOpen ftp; EvFetch ftp r (env_local_path env r d); EvClose ftp]
         | Raise _ => []
         end) s []).
    { unfold download_file, with_IngramFTP, ftp_download_file, pool_terminate,
        write_file.
      subst g ftp. wp_run; reflexivity. }
    exact W.
  - intros d. destruct (sessions_download_data_files env d s [] H0) as (b & H & _).
    now exists b.
  - destruct (sessions_main env s [] H0) as (b & H & _). now exists b.
Qed.

(** ** What the stages achieve when they return *)

Lemma wp_and {A} (m : M A) (Q1 Q2 : res A -> State -> list event -> Prop) s t :
  wp m Q1 s t -> wp m Q2 s t -> wp m (fun r s' t' => Q1 r s' t' /\ Q2 r s' t') s t.
Proof. unfold wp. tauto. Qed.

Lemma wp_monotone {A} (m : M A) (T : list event -> Prop) s t :
  monotone T -> T t -> wp m (fun _ _ t' => T t') s t.
Proof. unfold wp. intros HT Ht. now apply HT. Qed.

Lemma monotone_In e : monotone (In e).
Proof. intros t u H. apply in_or_app. now left. Qed.

Lemma monotone_and (T1 T2 : list event -> Prop) :
  monotone T1 -> monotone T2 -> monotone (fun t => T1 t /\ T2 t).
Proof. intros H1 H2 t u [? ?]. split; auto. Qed.

Lemma monotone_forall {X} (T : X -> list event -> Prop) :
  (forall x, monotone (T x)) -> monotone (fun t => forall x, T x t).
Proof. intros H t u Ht x. now apply H. Qed.

Lemma monotone_impl (P : Prop) (T : list event -> Prop) :
  monotone T -> monotone (fun t => P -> T t).
Proof. intros H t u Ht HP. now apply H, Ht. Qed.

Lemma monotone_ex {X} (T : X -> list event -> Prop) :
  (forall x, monotone (T x)) -> monotone (fun t => exists x, T x t).
Proof. intros H t u [x Ht]. exists x. now apply H. Qed.

Lemma monotone_const (P : Prop) : monotone (fun _ => P).
Proof. intros t u H. exact H. Qed.

Lemma monotone_fetched env d r : monotone (fun t => fetched env d t r).
Proof.
  apply monotone_ex. intros sid. apply monotone_and; apply monotone_In.
Qed.

Lemma monotone_category_downloaded env d c :
  monotone (fun t => category_downloaded env d t c).
Proof.
  apply monotone_ex. intros sid. apply monotone_ex. intros found.
  apply monotone_and; [apply monotone_In|].
  apply monotone_forall. intros r. apply monotone_impl, monotone_fetched.
Qed.

Lemma monotone_extracted z : monotone (fun t => extracted t z).
Proof. apply monotone_and; apply monotone_In. Qed.

Lemma monotone_directory_extracted dir :
  monotone (fun t => directory_extracted t dir).
Proof.
  apply monotone_ex. intros found. apply monotone_and; [apply monotone_In|].
  apply monotone_forall. intros z. apply monotone_impl, monotone_extracted.
Qed.

Create HintDb mono discriminated.
#[export] Hint Resolve monotone_In monotone_and monotone_forall monotone_impl
  monotone_ex monotone_const monotone_fetched monotone_category_downloaded
  monotone_extracted monotone_directory_extracted : mono.

Section Progress.

Context (env : Env).

(** A call of [download_file] that returns has transferred and written
    the file: with the global [pool] unset, an interrupted transfer cannot
    end in a normal return. *)
Lemma download_file_returns r d s t :
  pool (st_globals s) = None ->
  wp (download_file env r d)
     (fun res _ t' => forall b, res = Ok b -> fetched env d t' r) s t.
Proof.
  intros Hp. unfold download_file, with_IngramFTP, ftp_download_file,
    pool_terminate, write_file.
  repeat (wp_prim; rewrite ?Hp); try discriminate; intros b _;
    exists (st_fresh s); rewrite !in_app_iff; simpl; tauto.
Qed.

(** A batch of downloads: what is known of the trace stays known, and when
    the batch returns every item of it was fetched. *)
Lemma starmap_download_returns (T : list event -> Prop) n items s t :
  monotone T -> pool_unset s t -> T t ->
  wp (starmap n (uncurry (download_file env)) items)
     (fun res s' t' =>
        pool_unset s' t' /\ T t' /\
        forall bs, res = Ok bs ->
        forall r d, In (r, d) items -> fetched env d t' r) s t.
Proof.
  intros HT Hp Ht.
  eapply wp_conseq.
  - apply (wp_starmap_all (fun s t => pool_unset s t /\ T t)
             (fun x _ t => fetched env (snd x) t (fst x))); [|now split].
    intros [r d] _ s1 t1 [Hp1 Ht1]. unfold uncurry. simpl.
    apply wp_and; [apply wp_and|apply wp_and].
    + now apply pool_unset_download_file.
    + now apply wp_monotone.
    + unfold wp. cbv beta. intros y Hy. now apply monotone_fetched.
    + apply download_file_returns, Hp1.
  - intros res s' t' ([Hp' Ht'] & _ & HD).
    split; [exact Hp'|split; [exact Ht'|]].
    intros bs E r d Hin. apply (HD bs E (r, d) Hin).
Qed.

Lemma fetched_of_batch d (l : list string) t :
  (forall r d', In (r, d') (map (fun p => (p, d)) l) -> fetched env d' t r) ->
  forall r, In r l -> fetched env d t r.
Proof.
  intros H r Hr. apply H. apply in_map_iff. now exists r.
Qed.

(** When [download_data_files] returns, the four categories were listed
    and every listed file was fetched. *)
Lemma download_data_files_returns d s t :
  pool_unset s t ->
  wp (download_data_files env d)
     (fun res _ t' => forall b, res = Ok b ->
        forall c, category_downloaded env d t' c) s t.
Proof.
  intros Hp. unfold download_data_files. apply wp_bind.
  unfold with_IngramFTP, ftp_list. wp_run; try discriminate.
  unfold with_pool. wp_run.
  set (n := st_fresh s).
  set (T1 := fun t : list event =>
    In (EvList n Cover a1) t /\ In (EvList n Onix a2) t /\
    In (EvList n OnixBacklist a3) t /\ In (EvList n Reference a4) t).
  assert (M1 : monotone T1) by (unfold T1; auto 10 with mono).
  eapply wp_conseq.
  { apply (starmap_download_returns T1); [exact M1| |].
    - repeat (apply pool_unset_snoc; [exact Logic.I|]).
      destruct Hp. now split.
    - unfold T1. rewrite !in_app_iff. simpl. tauto. }
  intros [bs1|e1] s1 t1 (Hp1 & HT1 & HD1); cbn [cont]; wp_run; try discriminate.
  specialize (fetched_of_batch _ _ _ (HD1 _ eq_refl)) as F1.
  set (T2 := fun t => T1 t /\ forall r, In r a1 -> fetched env d t r).
  assert (M2 : monotone T2) by (unfold T2; auto 10 with mono).
  eapply wp_conseq.
  { apply (starmap_download_returns T2); [exact M2|exact Hp1|now split]. }
  intros [bs2|e2] s2 t2 (Hp2 & HT2 & HD2); cbn [cont]; wp_run; try discriminate.
  specialize (fetched_of_batch _ _ _ (HD2 _ eq_refl)) as F2.
  set (T3 := fun t => T2 t /\ forall r, In r a2 -> fetched env d t r).
  assert (M3 : monotone T3) by (unfold T3; auto 10 with mono).
  eapply wp_conseq.
  { apply (starmap_download_returns T3); [exact M3|exact Hp2|now split]. }
  intros [bs3|e3] s3 t3 (Hp3 & HT3 & HD3); cbn [cont]; wp_run; try discriminate.
  specialize (fetched_of_batch _ _ _ (HD3 _ eq_refl)) as F3.
  set (T4 := fun t => T3 t /\ forall r, In r a3 -> fetched env d t r).
  assert (M4 : monotone T4) by (unfold T4; auto 10 with mono).
  eapply wp_conseq.
  { apply (starmap_download_returns T4); [exact M4|exact Hp3|now split]. }
  intros [bs4|e4] s4 t4 (Hp4 & HT4 & HD4); cbn [cont]; wp_run; try discriminate.
  specialize (fetched_of_batch _ _ _ (HD4 _ eq_refl)) as F4.
  intros _ _ c.
  assert (M : monotone (fun t => category_downloaded env d t c)) by auto with mono.
  apply M.
  destruct HT4 as [[[(L1 & L2 & L3 & L4) G1] G2] G3].
  destruct c; exists n; eexists; (split; [eassumption|assumption]).
Qed.

(** A [with ZipFile(...)] block that returns has opened the archive and
    closed it. *)
Lemma with_ZipFile_returns {A} file (body : list (string * string) -> M A) s t :
  wp (with_ZipFile file body)
     (fun res _ t' => forall b, res = Ok b -> extracted t' file) s t.
Proof.
  unfold with_ZipFile, zip_open. wp_run; try discriminate.
  unfold wp. cbv beta. simpl.
  destruct (result (body members _)); intros b _;
    split; rewrite !in_app_iff; simpl; tauto.
Qed.

Lemma starmap_extract_returns (f : string -> string -> M unit) n items s t :
  (forall z d s t,
     wp (f z d) (fun res _ t' => forall b, res = Ok b -> extracted t' z) s t) ->
  wp (starmap n (uncurry f) items)
     (fun res _ t' => forall bs, res = Ok bs ->
        forall z d, In (z, d) items -> extracted t' z) s t.
Proof.
  intros Hf. eapply wp_conseq.
  - apply (wp_starmap_all (fun _ _ => True) (fun x _ t => extracted t (fst x)));
      [|exact Logic.I].
    intros [z d] _ s1 t1 _. unfold uncurry. simpl.
    apply wp_and; [now unfold wp|apply wp_and].
    + unfold wp. cbv beta. intros y Hy. now apply monotone_extracted.
    + apply Hf.
  - intros res s' t' (_ & _ & HD) bs E z d Hin. apply (HD bs E (z, d) Hin).
Qed.

Lemma unzip_onix_threaded_returns zips d w s t :
  wp (unzip_onix_threaded env zips d w)
     (fun res _ t' => forall b, res = Ok b ->
        forall z, In z zips -> extracted t' z) s t.
Proof.
  unfold unzip_onix_threaded, with_pool. wp_run.
  eapply wp_conseq.
  { apply starmap_extract_returns. intros z d' s' t'. apply with_ZipFile_returns. }
  intros [bs|e] s1 t1 HD; cbn [cont]; wp_run; try discriminate.
  intros _ _ z Hz. apply monotone_extracted.
  apply (HD bs eq_refl z (onix_extract_dir z d w)).
  apply in_map_iff. now exists z.
Qed.

(** The arguments of the cover tasks: each zip with the covers directory. *)
Lemma cover_args_spec (w : string) (zips : list string) s t :
  wp (map_m (fun z : string =>
        cs <- get_cover_size ;;
        ret (z, Py.join_all w ["Imageswk"; cs])) zips)
     (fun res s' t' => s' = s /\ t' = t /\
        forall args, res = Ok args ->
        map fst args = zips /\
        forall cs, cover_size (st_globals s) = Some cs ->
        args = map (fun z : string => (z, Py.join_all w ["Imageswk"; cs])) zips)
     s t.
Proof.
  induction zips as [|z zips IH]; simpl.
  - wp_run. split; [reflexivity|split; [reflexivity|]].
    intros args E. injection E as <-. now split.
  - unfold get_cover_size at 1. wp_run.
    + eapply wp_conseq; [apply IH|].
      intros [args|e] s' t' (-> & -> & H); cbn [cont]; wp_run;
        (split; [reflexivity|split; [reflexivity|]]); [|discriminate].
      intros args' E. injection E as <-.
      destruct (H args eq_refl) as [H1 H2]. split.
      * simpl. now rewrite H1.
      * intros cs' Hcs. rewrite (H2 cs' Hcs). injection Hcs as ->. reflexivity.
    + split; [reflexivity|split; [reflexivity|discriminate]].
Qed.

Lemma unzip_covers_threaded_returns zips w s t :
  wp (unzip_covers_threaded env zips w)
     (fun res _ t' => forall b, res = Ok b ->
        forall z, In z zips -> extracted t' z) s t.
Proof.
  unfold unzip_covers_threaded. apply wp_bind.
  unfold wp at 1. destruct (result (create_shard_dirs w s)) as [[]|e];
    cbn [cont]; [|discriminate].
  apply wp_bind. eapply wp_conseq; [apply cover_args_spec|].
  intros [args|e] s1 t1 (-> & -> & H); cbn [cont]; [|discriminate].
  destruct (H args eq_refl) as [Hargs _].
  unfold with_pool. wp_run.
  eapply wp_conseq.
  { apply starmap_extract_returns. intros z d' s' t'. apply with_ZipFile_returns. }
  intros [bs|e] s2 t2 HD; cbn [cont]; wp_run; try discriminate.
  intros _ _ z Hz. apply monotone_extracted.
  rewrite <- Hargs in Hz. apply in_map_iff in Hz as ([z' d'] & <- & Hin).
  apply (HD bs eq_refl z' d' Hin).
Qed.

End Progress.

(** ** The run of [main] *)

Lemma quiet_snoc J h s t e :
  quiet_event J e -> quiet J h s t -> quiet J h s (t ++ [e]).
Proof.
  intros He (Hp & Hh & Ht). repeat split; auto.
  apply Forall_app. split; [exact Ht|]. now constructor.
Qed.

Lemma quiet_weaken (J J' : string -> Prop) h s t :
  (forall z, J z -> J' z) -> quiet J h s t -> quiet J' h s t.
Proof.
  intros HJ (Hp & Hh & Ht). repeat split; auto.
  eapply Forall_impl; [exact Ht|].
  intros e (H1 & H2 & H3). repeat split; auto.
Qed.

Lemma quiet_no_checkpoint J h s t : quiet J h s t -> ~ In EvCheckpoint t.
Proof.
  intros (_ & _ & Ht) Hin. rewrite List.Forall_forall in Ht.
  destruct (Ht _ Hin) as (_ & H & _). now apply H.
Qed.

Lemma quiet_zip_open J h s t z : quiet J h s t -> In (EvZipOpen z) t -> J z.
Proof.
  intros (_ & _ & Ht) Hin. rewrite List.Forall_forall in Ht.
  destruct (Ht _ Hin) as (_ & _ & H). now apply H.
Qed.

Lemma quiet_pool_unset J h s t : quiet J h s t -> pool_unset s t.
Proof.
  intros (Hp & _ & Ht). split; [exact Hp|].
  eapply Forall_impl; [exact Ht|]. now intros e [H _].
Qed.

Ltac quiet_event_tac :=
  solve [repeat split; simpl; try exact Logic.I; try discriminate; auto].

Section QuietStages.

Context (env : Env) (J : string -> Prop) (h : option N).

Lemma quiet_makedirs p b : inv (quiet J h) (makedirs p b).
Proof.
  apply stage_makedirs.
  - intros s t fs H. exact H.
  - intros s t q H. apply quiet_snoc; [quiet_event_tac|exact H].
Qed.

Lemma quiet_download_data_files d : inv (quiet J h) (download_data_files env d).
Proof.
  apply stage_download_data_files;
    try (intros; apply quiet_snoc; [quiet_event_tac|assumption]).
  - intros s t fs H. exact H.
  - intros s t H. exact H.
  - intros s t r d' H. apply quiet_snoc; [|exact H].
    split; [apply H|]. split; discriminate.
Qed.

Lemma quiet_with_ZipFile {A} file (body : list (string * string) -> M A) :
  J file -> (forall zf, inv (quiet J h) (body zf)) ->
  inv (quiet J h) (with_ZipFile file body).
Proof.
  intros HJ Hb. unfold with_ZipFile, zip_open. inv_auto; intros s t H.
  all: apply wp_emit; apply quiet_snoc; [|exact H]; try quiet_event_tac.
  split; [exact Logic.I|]. split; [discriminate|].
  intros z E. now injection E as <-.
Qed.

Lemma quiet_zip_extract zf name path : inv (quiet J h) (zip_extract zf name path).
Proof.
  apply stage_zip_extract.
  - intros s t fs H. exact H.
  - intros s t q H. apply quiet_snoc; [quiet_event_tac|exact H].
  - intros s t q H. apply quiet_snoc; [quiet_event_tac|exact H].
Qed.

Lemma quiet_extract_zip file target :
  J file -> inv (quiet J h) (extract_zip file target).
Proof.
  intros HJ. unfold extract_zip, zip_extractall.
  apply quiet_with_ZipFile; [exact HJ|]. intros zf.
  apply inv_for_each. intros name _. apply quiet_zip_extract.
Qed.

Lemma quiet_extract_cover_zip file target :
  J file -> inv (quiet J h) (extract_cover_zip file target).
Proof.
  intros HJ. unfold extract_cover_zip.
  apply quiet_with_ZipFile; [exact HJ|]. intros zf.
  apply inv_for_each. intros name _.
  apply inv_bind; [apply inv_get_state|]. intros s.
  destruct (negb _); [apply quiet_zip_extract|apply inv_ret].
Qed.

Lemma quiet_with_pool {A} (body : nat -> M A) :
  (forall pid, inv (quiet J h) (body pid)) -> inv (quiet J h) (with_pool body).
Proof.
  intros Hb. apply inv_with_pool; [| | |exact Hb].
  - intros s t H. apply wp_fresh_id. exact H.
  - intros pid s t H. apply wp_emit. apply quiet_snoc; [quiet_event_tac|exact H].
  - intros pid s t H. apply wp_emit. apply quiet_snoc; [quiet_event_tac|exact H].
Qed.

Lemma quiet_unzip_onix_threaded zips d w :
  (forall z, In z zips -> J z) ->
  inv (quiet J h) (unzip_onix_threaded env zips d w).
Proof.
  intros HJ. unfold unzip_onix_threaded. apply quiet_with_pool. intros _.
  apply inv_bind; [|intros _; apply inv_ret].
  apply inv_starmap. intros [z dir] Hin. unfold uncurry. simpl.
  apply quiet_extract_zip, HJ.
  apply in_map_iff in Hin as (z' & E & Hz). now injection E as <- _.
Qed.

Lemma quiet_create_shard_dirs w : inv (quiet J h) (create_shard_dirs w).
Proof.
  unfold create_shard_dirs, get_cover_size, get_globals. inv_auto.
  apply quiet_makedirs.
Qed.

Lemma quiet_unzip_covers_threaded zips w :
  (forall z, In z zips -> J z) ->
  inv (quiet J h) (unzip_covers_threaded env zips w).
Proof.
  intros HJ s t H. unfold unzip_covers_threaded. apply wp_bind.
  eapply inv_wp; [apply quiet_create_shard_dirs|exact H|].
  intros [[]|e] s1 t1 H1; cbn [cont]; [|exact H1].
  apply wp_bind. eapply wp_conseq; [apply cover_args_spec|].
  intros [args|e] s2 t2 (-> & -> & Hargs); cbn [cont]; [|exact H1].
  destruct (Hargs args eq_refl) as [Hfst _].
  eapply inv_wp; [|exact H1|intros ? ? ? H'; exact H'].
  apply quiet_with_pool. intros _.
  apply inv_bind; [|intros _; apply inv_ret].
  apply inv_starmap. intros [z dir] Hin. unfold uncurry. simpl.
  apply quiet_extract_cover_zip, HJ. rewrite <- Hfst.
  apply in_map_iff. now exists (z, dir).
Qed.

End QuietStages.

Lemma wp_stage {A} (m : M A) (I : State -> list event -> Prop)
  (R : res A -> State -> list event -> Prop) s t :
  inv I m -> I s t -> wp m R s t ->
  wp m (fun res s' t' => I s' t' /\ R res s' t' /\ exists u, t' = t ++ u) s t.
Proof.
  intros Hm HI HR. repeat apply wp_and.
  - now apply Hm.
  - exact HR.
  - unfold wp. now eexists.
Qed.

Ltac quiet_here :=
  lazymatch goal with
  | |- quiet _ _ _ (_ ++ [_]) => apply quiet_snoc; [quiet_event_tac|quiet_here]
  | |- quiet ?J ?h _ ?t =>
      match goal with
      | H : quiet J h _ t |- _ =>
          first [ exact H
                | destruct H as (? & ? & ?); repeat split; cbn; assumption ]
      end
  end.

Ltac raised_early :=
  left; eexists; split; [reflexivity|];
  match goal with
  | H : quiet ?J ?h _ _ |- _ =>
      split; [eapply (quiet_no_checkpoint J h); quiet_here|];
      first [reflexivity | apply H]
  end.

Lemma category_downloaded_app env d c t u :
  category_downloaded env d t c -> category_downloaded env d (t ++ u) c.
Proof. apply monotone_category_downloaded. Qed.

Lemma extracted_app z t u : extracted t z -> extracted (t ++ u) z.
Proof. apply monotone_extracted. Qed.

Ltac in_trace :=
  repeat first
    [ solve [apply in_or_app; right; left; reflexivity]
    | apply in_or_app; left ].

Section MainRun.

Context (env : Env).

Lemma main_run s :
  pool (st_globals s) = None ->
  wp (main env) (run_outcome env (st_history s)) s [].
Proof.
  intros Hp. set (h := st_history s).
  assert (HQ : quiet (fun _ => False) h s []) by (repeat split; auto).
  unfold main, get_config, setup_logger, get_files_matching, save_run_history.
  repeat first
    [ wp_prim
    | lazymatch goal with
      | |- wp (makedirs _ _) _ _ _ =>
          eapply inv_wp; [apply (quiet_makedirs (fun _ => False) h)|quiet_here|];
          intros ? ? ? ?
      end ];
  try (unfold run_outcome; raised_early).
  (* the downloads *)
  all: eapply wp_conseq;
    [ apply (wp_stage _ (quiet (fun _ => False) h));
      [ apply quiet_download_data_files
      | quiet_here
      | apply download_data_files_returns;
        apply (quiet_pool_unset (fun _ => False) h); quiet_here ]
    | ].
  all: intros [[]|e] s1 t1 (HQ1 & HD & u1 & ->); cbn [cont];
    [|unfold run_outcome; raised_early].
  all: specialize (HD tt eq_refl).
  all: wp_run; [|unfold run_outcome; raised_early].
  (* the covers *)
  all: lazymatch goal with
       | |- wp (unzip_covers_threaded _ ?zc _) _ _ _ =>
           set (J1 := fun z : string => In z zc);
           pose proof (quiet_weaken (fun _ => False) J1 _ _ _
                         (fun z (F : False) => match F with end) HQ1) as HQ1'
       end.
  all: eapply wp_conseq;
    [ apply (wp_stage _ (quiet J1 h));
      [ apply quiet_unzip_covers_threaded; intros z Hz; exact Hz
      | quiet_here
      | apply unzip_covers_threaded_returns ]
    | ].
  all: intros [[]|e] s2 t2 (HQ2 & HC & u2 & ->); cbn [cont];
    [|unfold run_outcome; raised_early].
  all: specialize (HC tt eq_refl).
  all: wp_run; [|unfold run_outcome; raised_early].
  (* ONIX *)
  all: lazymatch goal with
       | |- wp (unzip_onix_threaded _ ?zo _ _) _ _ _ =>
           set (J2 := fun z : string => J1 z \/ In z zo);
           pose proof (quiet_weaken J1 J2 _ _ _
                         (fun z (F : J1 z) => or_introl F) HQ2) as HQ2'
       end.
  all: eapply wp_conseq;
    [ apply (wp_stage _ (quiet J2 h));
      [ apply quiet_unzip_onix_threaded; intros z Hz; right; exact Hz
      | quiet_here
      | apply unzip_onix_threaded_returns ]
    | ].
  all: intros [[]|e] s3 t3 (HQ3 & HO & u3 & ->); cbn [cont];
    [|unfold run_outcome; raised_early].
  all: specialize (HO tt eq_refl).
  all: wp_run; [|unfold run_outcome; raised_early].
  (* ONIX backlist *)
  all: lazymatch goal with
       | |- wp (unzip_onix_threaded _ ?zb _ _) _ _ _ =>
           set (J3 := fun z : string => J2 z \/ In z zb);
           pose proof (quiet_weaken J2 J3 _ _ _
                         (fun z (F : J2 z) => or_introl F) HQ3) as HQ3'
       end.
  all: eapply wp_conseq;
    [ apply (wp_stage _ (quiet J3 h));
      [ apply quiet_unzip_onix_threaded; intros z Hz; right; exact Hz
      | quiet_here
      | apply unzip_onix_threaded_returns ]
    | ].
  all: intros [[]|e] s4 t4 (HQ4 & HB & u4 & ->); cbn [cont];
    [|unfold run_outcome; raised_early].
  all: specialize (HB tt eq_refl).
  all: wp_run.
  (* the checkpoint *)
  all: unfold run_outcome; right.
  all: match type of HD with
       | forall c, category_downloaded _ ?dd _ c => eexists _, dd
       end.
  all: split; [reflexivity|].
  all: split; [apply (quiet_no_checkpoint J3 h s4); exact HQ4|].
  all: split; [intros c; repeat first [exact (HD c)|apply category_downloaded_app]|].
  all: split;
    [ repeat constructor; eexists;
      (split; [in_trace|intros z Hz;
               repeat first [exact (HC z Hz)|exact (HO z Hz)|exact (HB z Hz)
                            |apply extracted_app]])
    | ].
  all: split;
    [ intros z Hz;
      destruct (quiet_zip_open J3 h s4 _ z HQ4 Hz) as [[Hz'|Hz']|Hz'];
      (eexists _, _; (split; [|split; [|exact Hz']]); [|in_trace];
       unfold unpacked_dirs; simpl; tauto)
    | ].
  all: first [ split; [|reflexivity];
               match goal with H : env_save env = Ok ?a |- _ =>
                 destruct a; exact H end
             | split; [assumption|apply HQ4] ].
Qed.

End MainRun.

(** C1: the run-history checkpoint is written at most once, as the last
    action of [main], and only after the four categories were downloaded
    and the archives found below the three unpacked directories were
    extracted; a run that returns has written it, and the run history then
    holds the new date; a run that raises leaves the run history as it was,
    and unless the checkpoint call itself is what failed, the checkpoint
    was never attempted. *)
Theorem C1_checkpoint_is_last_and_only_after_the_pipeline
  (env : Env) (fs : FS) (h : option N) :
  let o := main env (initial_state fs h) in
  (In EvCheckpoint (events o) ->
     exists pre download_dir,
       events o = pre ++ [EvCheckpoint] /\ ~ In EvCheckpoint pre /\
       (forall c, category_downloaded env download_dir pre c) /\
       Forall (directory_extracted pre) (unpacked_dirs download_dir)) /\
  (result o = Ok tt ->
     In EvCheckpoint (events o) /\
     st_history (final o) = Some (env_now env)) /\
  (forall e, result o = Raise e ->
     st_history (final o) = h /\
     (env_save env = Ok tt -> ~ In EvCheckpoint (events o))).
Proof.
  intros o.
  assert (H : run_outcome env h (result o) (final o) (events o)).
  { apply (main_run env (initial_state fs h)). reflexivity. }
  destruct H as [(e & E & Hno & Hh)|(pre & dd & E & Hno & Hd & Hx & _ & Hres)].
  - repeat split.
    + intros Hin. contradiction.
    + rewrite E in H. discriminate.
    + rewrite E in H. discriminate.
    + exact Hh.
    + intros _. exact Hno.
  - repeat split.
    + intros _. exists pre, dd. auto.
    + rewrite E. apply in_or_app. right. now left.
    + rewrite H in Hres. apply Hres.
    + rewrite H in Hres. apply Hres.
    + intros Hs. rewrite H in Hres. destruct Hres as [Hres _]. congruence.
Qed.



(** ** Directories and files *)

Lemma add_dirs_lookup (fs : FS) ds q :
  add_dirs fs ds !! q =
  if in_dec String.string_dec q ds then Some Dir else fs !! q.
Proof.
  induction ds as [|d ds IH].
  - reflexivity.
  - cbn [add_dirs foldr]. destruct (String.string_dec d q) as [->|Hne].
    + rewrite lookup_insert_eq.
      destruct (in_dec String.string_dec q (q :: ds)) as [_|N]; [reflexivity|].
      exfalso. apply N. now left.
    + rewrite lookup_insert_ne by exact Hne. fold (add_dirs fs ds). rewrite IH.
      destruct (in_dec String.string_dec q ds) as [Hin|Hnin];
        destruct (in_dec String.string_dec q (d :: ds)) as [H|H];
        try reflexivity.
      * exfalso. apply H. now right.
      * destruct H as [H|H]; contradiction.
Qed.

Lemma existsb_is_file_false (fs : FS) ds q :
  existsb (is_file fs) ds = false -> In q ds ->
  forall c, fs !! q <> Some (File c).
Proof.
  intros He Hin c Hq.
  assert (H : existsb (is_file fs) ds = true).
  { apply existsb_exists. exists q. split; [exact Hin|]. unfold is_file. now rewrite Hq. }
  congruence.
Qed.

Lemma add_dirs_only_dirs (fs : FS) ds :
  existsb (is_file fs) ds = false -> only_dirs_added fs (add_dirs fs ds).
Proof.
  intros He. split.
  - apply map_subseteq_spec. intros q x Hq. rewrite add_dirs_lookup.
    destruct (in_dec _ q ds) as [Hin|_]; [|exact Hq].
    destruct x as [c|]; [|reflexivity].
    exfalso. eapply existsb_is_file_false; eauto.
  - intros p c. rewrite add_dirs_lookup.
    destruct (in_dec _ p ds); [discriminate|auto].
Qed.

Lemma only_dirs_added_refl fs : only_dirs_added fs fs.
Proof. split; [reflexivity|auto]. Qed.

Lemma only_dirs_added_trans fs1 fs2 fs3 :
  only_dirs_added fs1 fs2 -> only_dirs_added fs2 fs3 -> only_dirs_added fs1 fs3.
Proof.
  intros [S1 F1] [S2 F2]. split; [now transitivity fs2|]. eauto.
Qed.

Lemma ancestors_self fuel p : In p (ancestors fuel p).
Proof. destruct fuel; simpl; [now left|]. destruct (_ || _); now left. Qed.

(** What [os.makedirs] does to the file system and to the trace. *)
Lemma makedirs_spec p exist_ok s t :
  wp (makedirs p exist_ok)
     (fun res s' t' =>
        only_dirs_added (st_fs s) (st_fs s') /\
        st_globals s' = st_globals s /\ st_history s' = st_history s /\
        st_fresh s' = st_fresh s /\
        (forall u, res = Ok u -> st_fs s' !! p = Some Dir) /\
        (existsb (is_file (st_fs s)) (ancestors (String.length p) p) = false ->
         exist_ok = true -> res = Ok tt) /\
        (forall q, ~ In q (ancestors (String.length p) p) ->
           st_fs s' !! q = st_fs s !! q) /\
        (t' = t \/ (t' = t ++ [EvMakedirs p] /\ st_fs s !! p = None))) s t.
Proof.
  unfold makedirs. wp_run.
  all: (split; [first [apply only_dirs_added_refl
                      |now apply add_dirs_only_dirs]|]).
  all: repeat split; auto; try discriminate.
  all: try (intros q Hq; rewrite add_dirs_lookup;
            destruct (in_dec _ _ _); [contradiction|reflexivity]).
  all: try (intros He; exfalso;
            eapply (existsb_is_file_false _ _ p He); [apply ancestors_self|];
            eassumption).
  all: try congruence.
  intros _ _. rewrite add_dirs_lookup.
  destruct (in_dec _ _ _) as [_|N]; [reflexivity|].
  exfalso. apply N, ancestors_self.
Qed.

Lemma In_range n i : In i (Py.range n) <-> (i < n)%N.
Proof.
  unfold Py.range. rewrite in_map_iff. split.
  - intros (k & <- & Hk). apply in_seq in Hk. lia.
  - intros Hi. exists (N.to_nat i). split; [apply N2Nat.id|].
    apply in_seq. lia.
Qed.

(** The loop of lines 185 to 187 over any list of numbers: it only adds
    directories, at paths where nothing was; where it returns, the
    directories of the list are there; and it returns when no file sits on
    a path it needs. *)
Lemma shard_loop_spec w (l : list N) s t :
  wp (for_each l (fun i =>
        cs <- get_cover_size ;;
        makedirs (Py.join_all w ["Imageswk"; cs; Py.fmt04 i]) true))
     (fun res s' t' =>
        only_dirs_added (st_fs s) (st_fs s') /\
        st_globals s' = st_globals s /\ st_history s' = st_history s /\
        st_fresh s' = st_fresh s /\
        (exists u, t' = t ++ u /\ Forall is_makedirs u /\
           forall d, In (EvMakedirs d) u -> st_fs s !! d = None) /\
        (forall cs, cover_size (st_globals s) = Some cs ->
           (res = Ok tt ->
            forall i, In i l -> st_fs s' !! shard_dir w cs i = Some Dir) /\
           ((forall i, In i l ->
               existsb (is_file (st_fs s))
                 (ancestors (String.length (shard_dir w cs i))
                    (shard_dir w cs i)) = false) ->
            res = Ok tt) /\
           (forall q,
              (forall i, In i l ->
                 ~ In q (ancestors (String.length (shard_dir w cs i))
                           (shard_dir w cs i))) ->
              st_fs s' !! q = st_fs s !! q))) s t.
Proof.
  revert s t. induction l as [|i l IH]; intros s t; cbn [for_each].
  - wp_run. repeat split; auto using only_dirs_added_refl.
    + exists []. rewrite app_nil_r. repeat split; auto. intros d [].
    + intros _ j [].
  - unfold get_cover_size at 1. wp_run.
    + (* cover_size is a string *)
      eapply wp_conseq; [apply makedirs_spec|].
      intros res1 s1 t1 (Hd1 & Hg1 & Hh1 & Hf1 & Hok1 & Hfree1 & Hframe1 & Ht1).
      destruct res1 as [[]|e1]; cbn [cont].
      * eapply wp_conseq; [apply IH|].
        intros res2 s2 t2 (Hd2 & Hg2 & Hh2 & Hf2 & (u2 & -> & Hu2 & Hn2) & H2).
        split; [eapply only_dirs_added_trans; eauto|].
        split; [congruence|]. split; [congruence|]. split; [congruence|].
        split.
        { destruct Ht1 as [-> | [-> Hnone]].
          - exists u2. repeat split; auto. intros d Hin.
            specialize (Hn2 d Hin). destruct Hd1 as [Hsub _].
            destruct (st_fs s !! d) eqn:E; [|reflexivity].
            rewrite (lookup_weaken _ _ _ _ E Hsub) in Hn2. discriminate.
          - exists (EvMakedirs (Py.join_all w ["Imageswk"; s0; Py.fmt04 i]) :: u2).
            rewrite <- app_assoc. repeat split; auto.
            + constructor; [exact Logic.I|exact Hu2].
            + intros d [E|Hin]; [inversion E; subst; exact Hnone|].
              specialize (Hn2 d Hin). destruct Hd1 as [Hsub _].
              destruct (st_fs s !! d) eqn:E; [|reflexivity].
              rewrite (lookup_weaken _ _ _ _ E Hsub) in Hn2. discriminate. }
        intros cs Hcs. assert (s0 = cs) as -> by congruence.
        assert (Hcs1 : cover_size (st_globals s1) = Some cs) by congruence.
        destruct (H2 cs Hcs1) as (Hex2 & Hfree2 & Hframe2). split.
        { intros E j [<-|Hj]; [|now apply Hex2].
          destruct Hd2 as [Hsub2 _].
          apply (lookup_weaken _ _ _ _ (Hok1 tt eq_refl) Hsub2). }
        split.
        2:{ intros q Hq. rewrite Hframe2 by (intros j Hj; apply Hq; now right).
            apply Hframe1. apply (Hq i). now left. }
        { intros Hfree. apply Hfree2. intros j Hj.
          specialize (Hfree j (or_intror Hj)).
          apply not_true_is_false. intros Hex.
          apply existsb_exists in Hex as (d & Hd & Hfile).
          unfold is_file in Hfile.
          destruct (st_fs s1 !! d) as [[c|]|] eqn:E; try discriminate.
          destruct Hd1 as [_ Hfiles]. specialize (Hfiles d c E).
          assert (Hx : existsb (is_file (st_fs s)) (ancestors
                    (String.length (shard_dir w cs j)) (shard_dir w cs j)) = true).
          { apply existsb_exists. exists d. split; [exact Hd|].
            unfold is_file. now rewrite Hfiles. }
          congruence. }
      * split; [exact Hd1|]. split; [exact Hg1|]. split; [exact Hh1|].
        split; [exact Hf1|]. split.
        { destruct Ht1 as [-> | [-> Hnone]].
          - exists []. rewrite app_nil_r. repeat split; auto. intros d [].
          - eexists. split; [reflexivity|]. split; [repeat constructor|].
            intros d [E|[]]. inversion E; subst; exact Hnone. }
        intros cs Hcs. assert (s0 = cs) as -> by congruence.
        split; [discriminate|]. split.
        { intros Hfree.
          specialize (Hfree1 (Hfree i (or_introl eq_refl)) eq_refl). discriminate. }
        intros q Hq. apply Hframe1. apply (Hq i). now left.
    + (* cover_size is None *)
      repeat split; auto using only_dirs_added_refl.
      * exists []. rewrite app_nil_r. repeat split; auto. intros d [].
      * discriminate.
      * congruence.
Qed.

Lemma create_shard_dirs_spec w s t :
  wp (create_shard_dirs w)
     (fun res s' t' =>
        only_dirs_added (st_fs s) (st_fs s') /\
        st_globals s' = st_globals s /\ st_history s' = st_history s /\
        st_fresh s' = st_fresh s /\
        (exists u, t' = t ++ u /\ Forall is_makedirs u /\
           forall d, In (EvMakedirs d) u -> st_fs s !! d = None) /\
        (forall cs, cover_size (st_globals s) = Some cs ->
           (res = Ok tt -> shard_dirs_exist w cs (st_fs s')) /\
           ((forall i, (i < 10000)%N ->
               existsb (is_file (st_fs s))
                 (ancestors (String.length (shard_dir w cs i))
                    (shard_dir w cs i)) = false) ->
            res = Ok tt) /\
           (forall q,
              (forall i, (i < 10000)%N ->
                 ~ In q (ancestors (String.length (shard_dir w cs i))
                           (shard_dir w cs i))) ->
              st_fs s' !! q = st_fs s !! q))) s t.
Proof.
  unfold create_shard_dirs. eapply wp_conseq; [apply shard_loop_spec|].
  intros res s' t' (H1 & H2 & H3 & H4 & H5 & H6).
  repeat (split; [assumption|]). intros cs Hcs.
  destruct (H6 cs Hcs) as (Hex & Hfree & Hframe). split; [|split].
  - intros E i Hi. apply Hex; [exact E|]. now apply In_range.
  - intros Hf. apply Hfree. intros i Hi. apply Hf. now apply In_range.
  - intros q Hq. apply Hframe. intros i Hi. apply Hq. now apply In_range.
Qed.

Lemma getinfo_namelist members name :
  In name (namelist members) -> exists d, getinfo members name = Some d.
Proof.
  induction members as [|[n d] members IH]; simpl; [tauto|].
  intros [->|Hin].
  - destruct (getinfo members name); [eauto|]. rewrite String.eqb_refl. eauto.
  - destruct (IH Hin) as [d' ->]. eauto.
Qed.

(** What extracting one member does: besides the member's own path, only
    directories are added where nothing was; the member's path ends up
    holding the member's bytes when the call returns; the only events are
    the creation of the directory above the member, if it was missing, and
    the write of the member. *)
Lemma zip_extract_spec members name path s t :
  wp (zip_extract members name path)
     (fun res s' t' =>
        let target := Py.join path name in
        (forall q, q <> target ->
           st_fs s' !! q = st_fs s !! q \/
           (st_fs s !! q = None /\ st_fs s' !! q = Some Dir)) /\
        (st_fs s !! target = None \/ st_fs s' !! target = st_fs s !! target \/
         exists c d, st_fs s !! target = Some (File c) /\
                     st_fs s' !! target = Some (File (Data d))) /\
        (forall u, res = Ok u ->
           exists d, getinfo members name = Some d /\
                     st_fs s' !! target = Some (File (Data d))) /\
        st_globals s' = st_globals s /\ st_history s' = st_history s /\
        st_fresh s' = st_fresh s /\
        exists u, t' = t ++ u /\
          forall e, In e u ->
            e = EvWrite target \/
            (e = EvMakedirs (Py.dirname target) /\
             st_fs s !! Py.dirname target = None)) s t.
Proof.
  unfold zip_extract.
  destruct (getinfo members name) as [d|] eqn:Hd.
  2:{ wp_run. repeat split; auto; try discriminate.
      exists []. rewrite app_nil_r. split; [reflexivity|]. intros e []. }
  set (target := Py.join path name).
  assert (Hw : forall s1 t1,
    wp (write_file target (Data d))
       (fun res s' t' =>
          (forall q, q <> target -> st_fs s' !! q = st_fs s1 !! q) /\
          (st_fs s1 !! target = None \/ st_fs s' !! target = st_fs s1 !! target \/
           exists c d', st_fs s1 !! target = Some (File c) /\
                        st_fs s' !! target = Some (File (Data d'))) /\
          (forall u, res = Ok u -> st_fs s' !! target = Some (File (Data d))) /\
          st_globals s' = st_globals s1 /\ st_history s' = st_history s1 /\
          st_fresh s' = st_fresh s1 /\
          (t' = t1 \/ t' = t1 ++ [EvWrite target])) s1 t1).
  { intros s1 t1. unfold write_file. wp_run; repeat split; auto; try discriminate.
    - intros q Hq. now rewrite lookup_insert_ne by congruence.
    - right. right. exists c, d. rewrite lookup_insert_eq. auto.
    - intros _ _. apply lookup_insert_eq.
    - intros q Hq. now rewrite lookup_insert_ne by congruence.
    - intros _ _. apply lookup_insert_eq. }
  wp_run.
  - (* the directory above is missing *)
    eapply wp_conseq; [apply makedirs_spec|].
    intros res1 s1 t1 ([Hsub Hfiles] & Hg1 & Hh1 & Hf1 & _ & _ & _ & Ht1).
    assert (Hgrow : forall q,
      st_fs s1 !! q = st_fs s !! q \/ (st_fs s !! q = None /\ st_fs s1 !! q = Some Dir)).
    { intros q. destruct (st_fs s !! q) as [n|] eqn:E.
      - left. apply (lookup_weaken _ _ _ _ E Hsub).
      - destruct (st_fs s1 !! q) as [[c|]|] eqn:E1; auto.
        rewrite (Hfiles q c E1) in E. discriminate. }
    assert (Hev1 : exists u, t1 = t ++ u /\ forall e, In e u ->
      e = EvWrite target \/
      (e = EvMakedirs (Py.dirname target) /\ st_fs s !! Py.dirname target = None)).
    { destruct Ht1 as [-> | [-> Hn]].
      - exists []. rewrite app_nil_r. split; [reflexivity|]. intros e [].
      - eexists. split; [reflexivity|]. intros e [<- | []]. right. now split. }
    destruct res1 as [[]|e1]; cbn [cont].
    + eapply wp_conseq; [apply Hw|].
      intros res2 s2 t2 (Hq2 & Ht2 & Hok2 & Hg2 & Hh2 & Hf2 & He2).
      split; [intros q Hq; rewrite (Hq2 q Hq); apply Hgrow|].
      split.
      { destruct (Hgrow target) as [E|[E _]]; [|now left].
        rewrite <- E. destruct Ht2 as [H|[H|(c & d' & H1 & H2)]].
        - rewrite H in E. now left.
        - right. left. congruence.
        - right. right. exists c, d'. split; congruence. }
      split; [intros u E; exists d; split; [reflexivity|eapply Hok2; eauto]|].
      split; [congruence|]. split; [congruence|]. split; [congruence|].
      destruct Hev1 as (u1 & -> & Hu1). destruct He2 as [-> | ->].
      * exists u1. auto.
      * exists (u1 ++ [EvWrite target]). rewrite app_assoc. split; [reflexivity|].
        intros e Hin. apply in_app_or in Hin as [Hin|[<- | []]]; auto.
    + split; [intros q _; apply Hgrow|].
      split.
      { destruct (Hgrow target) as [E|[E _]]; [right; left; exact E|now left]. }
      split; [discriminate|]. repeat (split; [assumption|]). exact Hev1.
  - (* the directory above exists, or the member has none *)
    eapply wp_conseq; [apply Hw|].
    intros res2 s2 t2 (Hq2 & Ht2 & Hok2 & Hg2 & Hh2 & Hf2 & He2).
    split; [intros q Hq; left; apply Hq2, Hq|].
    split; [exact Ht2|].
    split; [intros u E; exists d; split; [reflexivity|eapply Hok2; eauto]|].
    repeat (split; [assumption|]).
    destruct He2 as [-> | ->].
    + exists []. rewrite app_nil_r. split; [reflexivity|]. intros e [].
    + eexists. split; [reflexivity|]. intros e [<- | []]. now left.
Qed.





(** ** The skip rule *)







(** ** The shard directories come first *)

Section NoArchive.

Context (q : string) (m : list (string * string)).

Lemma no_archive_emit e : inv (no_archive q m) (emit e).
Proof. intros s t H. now apply wp_emit. Qed.

Lemma no_archive_makedirs p b : inv (no_archive q m) (makedirs p b).
Proof.
  intros s t H. eapply wp_conseq; [apply makedirs_spec|].
  intros res s' t' ([_ Hf] & _). intros E. apply H. now apply Hf.
Qed.

Lemma no_archive_write_data p d : inv (no_archive q m) (write_file p (Data d)).
Proof.
  intros s t H. unfold write_file. wp_run; try exact H.
  all: unfold no_archive; simpl;
    destruct (String.string_dec p q) as [->|Hne];
    [rewrite lookup_insert_eq; discriminate
    |rewrite lookup_insert_ne by exact Hne; exact H].
Qed.

#[local] Hint Resolve no_archive_emit no_archive_makedirs
  no_archive_write_data : inv.

Lemma no_archive_zip_extract zf name path :
  inv (no_archive q m) (zip_extract zf name path).
Proof. unfold zip_extract. inv_auto. Qed.

#[local] Hint Resolve no_archive_zip_extract : inv.


Lemma no_archive_extract_zip file target :
  inv (no_archive q m) (extract_zip file target).
Proof.
  unfold extract_zip, with_ZipFile, zip_open, zip_extractall. inv_auto.
Qed.

End NoArchive.




Lemma events_bind {A B} (m : M A) (k : A -> M B) s :
  events (bind m k s) =
  events (m s) ++
  match result (m s) with
  | Ok a => events (k a (final (m s)))
  | Raise _ => []
  end.
Proof.
  unfold bind. destruct (result (m s)); simpl; [reflexivity|].
  now rewrite app_nil_r.
Qed.





(** ** Paths below a directory *)

Lemma append_nil (s : string) : ("" ++ s)%string = s.
Proof. reflexivity. Qed.

Lemma append_cons c (a b : string) :
  (String c a ++ b)%string = String c (a ++ b).
Proof. reflexivity. Qed.

Ltac app_simpl := rewrite ?append_nil, ?append_cons; simpl.

Lemma rfind_from_plain k j :
  plain k = true -> Py.rfind_from "/" k j = (-1)%Z.
Proof.
  revert j. induction k as [|c k IH]; intros j; simpl; [reflexivity|].
  intros H. apply andb_true_iff in H as [Hc Hk]. rewrite (IH _ Hk). simpl.
  apply negb_true_iff in Hc. now rewrite Hc.
Qed.

Lemma rfind_from_child d k j :
  (0 <= j)%Z -> plain k = true ->
  Py.rfind_from "/" (d ++ String "/" k) j = (j + Z.of_nat (String.length d))%Z.
Proof.
  revert j. induction d as [|c d IH]; intros j Hj Hk.
  - rewrite append_nil. cbn [Py.rfind_from String.length].
    rewrite (rfind_from_plain _ _ Hk). simpl. lia.
  - rewrite append_cons. cbn [Py.rfind_from String.length].
    rewrite IH by (lia || assumption).
    destruct (0 <=? j + 1 + Z.of_nat (String.length d))%Z eqn:E.
    + lia.
    + apply Z.leb_gt in E. lia.
Qed.

Lemma take_child d c k :
  Py.take (S (String.length d)) (d ++ String c k) = (d ++ String c "")%string.
Proof.
  unfold Py.take. induction d as [|a d IH]; app_simpl.
  - now destruct k.
  - now rewrite IH.
Qed.

Lemma all_sep_snoc d : Py.all_sep (d ++ "/") = Py.all_sep d.
Proof. induction d as [|a d IH]; app_simpl; [reflexivity|now rewrite IH]. Qed.

Lemma rstrip_sep_snoc d : Py.rstrip_sep (d ++ "/") = Py.rstrip_sep d.
Proof. induction d as [|a d IH]; app_simpl; [reflexivity|now rewrite IH]. Qed.

Lemma rstrip_sep_cons c s :
  Py.rstrip_sep (String c s) =
  match Py.rstrip_sep s with
  | EmptyString => if Ascii.eqb c "/" then EmptyString else String c EmptyString
  | r => String c r
  end.
Proof. reflexivity. Qed.

Lemma rstrip_sep_id d : Py.ends_with_sep d = false -> Py.rstrip_sep d = d.
Proof.
  induction d as [|a d IH]; [reflexivity|].
  destruct d as [|b d].
  - simpl. now intros ->.
  - intros H. change (Py.ends_with_sep (String b d) = false) in H.
    now rewrite rstrip_sep_cons, (IH H).
Qed.

Lemma clean_dir_spec d :
  clean_dir d = true ->
  String.eqb d "" = false /\ Py.ends_with_sep d = false /\ Py.all_sep d = false.
Proof.
  unfold clean_dir. rewrite !andb_true_iff, !negb_true_iff. tauto.
Qed.

Lemma snoc_not_empty d c : String.eqb (d ++ String c "") "" = false.
Proof. now destruct d. Qed.

(** [os.path.dirname] of a name directly below [d]. *)
Lemma dirname_child d k :
  clean_dir d = true -> plain k = true ->
  Py.dirname (d ++ String "/" k) = d.
Proof.
  intros Hd Hk. apply clean_dir_spec in Hd as (_ & He & Ha).
  unfold Py.dirname, Py.rfind. rewrite rfind_from_child by (lia || assumption).
  replace (Z.to_nat (0 + Z.of_nat (String.length d) + 1)) with (S (String.length d)) by lia.
  rewrite take_child, snoc_not_empty, all_sep_snoc, Ha. simpl.
  rewrite rstrip_sep_snoc. now apply rstrip_sep_id.
Qed.

Lemma plain_no_sep k : plain k = true -> Py.starts_with_sep k = false.
Proof.
  destruct k as [|c k]; [reflexivity|]. simpl.
  intros H. apply andb_true_iff in H as [H _]. now apply negb_true_iff in H.
Qed.

(** [os.path.join] of [d] and a name. *)
Lemma join_child d k :
  clean_dir d = true -> Py.starts_with_sep k = false ->
  Py.join d k = (d ++ String "/" k)%string.
Proof.
  intros Hd Hk. apply clean_dir_spec in Hd as (Hn & He & _).
  unfold Py.join. now rewrite Hk, Hn, He.
Qed.

Lemma length_append (a b : string) :
  String.length (a ++ b) = String.length a + String.length b.
Proof. induction a as [|c a IH]; app_simpl; [reflexivity|now rewrite IH]. Qed.

Lemma eqb_length_neq (a b : string) :
  String.length a <> String.length b -> String.eqb a b = false.
Proof. intros H. apply String.eqb_neq. congruence. Qed.

(** The directories above a name directly below [d]. *)
Lemma ancestors_child d k fuel :
  clean_dir d = true -> plain k = true ->
  ancestors (S fuel) (d ++ String "/" k) =
  (d ++ String "/" k)%string :: ancestors fuel d.
Proof.
  intros Hd Hk. cbn [ancestors]. rewrite (dirname_child _ _ Hd Hk).
  apply clean_dir_spec in Hd as (Hn & _ & _). rewrite Hn.
  rewrite eqb_length_neq; [reflexivity|]. rewrite length_append. simpl. lia.
Qed.

(** ** The names of the shard directories *)

Lemma digit_not_sep d : (d < 10)%N -> Ascii.eqb (Py.digit d) "/" = false.
Proof.
  intros H.
  assert (E : (d = 0 \/ d = 1 \/ d = 2 \/ d = 3 \/ d = 4 \/ d = 5 \/ d = 6 \/
               d = 7 \/ d = 8 \/ d = 9)%N) by lia.
  repeat (destruct E as [-> | E]; [reflexivity|]). now subst.
Qed.

Lemma plain_append a b : plain (a ++ b) = plain a && plain b.
Proof.
  induction a as [|c a IH]; app_simpl; [reflexivity|]. now rewrite IH, andb_assoc.
Qed.

Lemma plain_zeros n : plain (Py.zeros n) = true.
Proof. induction n; simpl; auto. Qed.

Lemma plain_decimal_from fuel : forall i acc,
  plain acc = true -> plain (Py.decimal_from fuel i acc) = true.
Proof.
  induction fuel as [|fuel IH]; intros i acc Hacc; simpl; [exact Hacc|].
  assert (H : plain (String (Py.digit (i mod 10)) acc) = true).
  { simpl. rewrite digit_not_sep, Hacc; [reflexivity|].
    apply N.mod_lt. discriminate. }
  destruct (i / 10 =? 0)%N; [exact H|now apply IH].
Qed.

Lemma plain_fmt04 i : plain (Py.fmt04 i) = true.
Proof.
  unfold Py.fmt04, Py.decimal. rewrite plain_append, plain_zeros.
  now apply plain_decimal_from.
Qed.

Lemma length_zeros n : String.length (Py.zeros n) = n.
Proof. induction n; simpl; auto. Qed.

Lemma length_decimal_from fuel : forall (k : nat) i acc,
  (i < 10 ^ N.of_nat (S k))%N ->
  String.length (Py.decimal_from fuel i acc) <= String.length acc + S k.
Proof.
  induction fuel as [|fuel IH]; intros k i acc Hi; simpl; [lia|].
  destruct (i / 10 =? 0)%N eqn:E; [simpl; lia|].
  apply N.eqb_neq in E. destruct k as [|k].
  - exfalso. apply E. apply N.div_small. exact Hi.
  - assert (H : (i / 10 < 10 ^ N.of_nat (S k))%N).
    { apply N.Div0.div_lt_upper_bound.
      rewrite <- N.pow_succ_r', <- Nat2N.inj_succ. exact Hi. }
    specialize (IH k _ (String (Py.digit (i mod 10)) acc) H). simpl in IH. lia.
Qed.


Lemma length_fmt04 i : (i < 10000)%N -> String.length (Py.fmt04 i) = 4.
Proof.
  intros Hi. unfold Py.fmt04. rewrite length_append, length_zeros.
  assert (H := length_decimal_from (S (N.size_nat i)) 3 i "" Hi).
  fold (Py.decimal i) in H. simpl in H. lia.
Qed.

Lemma shard_dir_child w cs i :
  clean_dir (cover_dir w cs) = true ->
  shard_dir w cs i = (cover_dir w cs ++ String "/" (Py.fmt04 i))%string.
Proof.
  intros Hd. unfold shard_dir, cover_dir, Py.join_all. cbn [fold_left].
  apply (join_child _ _ Hd). apply plain_no_sep, plain_fmt04.
Qed.

Lemma length_shard_dir w cs i :
  clean_dir (cover_dir w cs) = true -> (i < 10000)%N ->
  String.length (shard_dir w cs i) = String.length (cover_dir w cs) + 5.
Proof.
  intros Hd Hi. rewrite (shard_dir_child _ _ _ Hd), length_append. simpl.
  rewrite (length_fmt04 _ Hi). lia.
Qed.

(** What [os.makedirs] would create for the shard directory [i]. *)
Lemma ancestors_shard_dir w cs i :
  clean_dir (cover_dir w cs) = true -> (i < 10000)%N ->
  ancestors (String.length (shard_dir w cs i)) (shard_dir w cs i) =
  shard_dir w cs i ::
  ancestors (String.length (cover_dir w cs) + 4) (cover_dir w cs).
Proof.
  intros Hd Hi. rewrite (length_shard_dir _ _ _ Hd Hi).
  replace (String.length (cover_dir w cs) + 5)
    with (S (String.length (cover_dir w cs) + 4)) by lia.
  rewrite (shard_dir_child _ _ _ Hd).
  apply (ancestors_child _ _ _ Hd). apply plain_fmt04.
Qed.
Lemma wp_from_nil {A} (m : M A) (Q : res A -> State -> list event -> Prop) s :
  wp m Q s [] -> Q (result (m s)) (final (m s)) (events (m s)).
Proof. exact (fun H => H). Qed.




(** The loop of the shard directories returns when no file is in the way:
    none at a directory above the directory of the covers, and none at the
    place of a shard directory, to which belong only paths that are five
    characters longer than the directory of the covers. *)
Lemma create_shard_dirs_returns w cs s t :
  let A := ancestors (String.length (cover_dir w cs) + 4) (cover_dir w cs) in
  cover_size (st_globals s) = Some cs ->
  clean_dir (cover_dir w cs) = true ->
  existsb (is_file (st_fs s)) A = false ->
  (forall p c, st_fs s !! p = Some (File c) ->
     String.length p <> String.length (cover_dir w cs) + 5) ->
  wp (create_shard_dirs w)
     (fun res s' t' =>
        res = Ok tt /\
        only_dirs_added (st_fs s) (st_fs s') /\
        st_globals s' = st_globals s /\ st_history s' = st_history s /\
        st_fresh s' = st_fresh s /\
        shard_dirs_exist w cs (st_fs s') /\
        (exists u, t' = t ++ u /\ Forall is_makedirs u) /\
        (forall q, String.length q <> String.length (cover_dir w cs) + 5 ->
           ~ In q A -> st_fs s' !! q = st_fs s !! q)) s t.
Proof.
  intros A Hcs Hd HA Hlen.
  eapply wp_conseq; [apply create_shard_dirs_spec|].
  intros res s' t' (H1 & H2 & H3 & H4 & (u & Hu & Hmk & _) & H6).
  destruct (H6 cs Hcs) as (Hex & Hfree & Hframe).
  assert (Hok : res = Ok tt).
  { apply Hfree. intros i Hi. rewrite (ancestors_shard_dir _ _ _ Hd Hi).
    cbn [existsb]. fold A. rewrite HA, orb_false_r.
    unfold is_file. destruct (st_fs s !! shard_dir w cs i) as [[c|]|] eqn:E;
      try reflexivity.
    exfalso. apply (Hlen _ _ E). now apply length_shard_dir. }
  repeat (split; [assumption|]). split; [auto|]. split; [eauto|].
  intros q Hq Hin. apply Hframe. intros i Hi.
  rewrite (ancestors_shard_dir _ _ _ Hd Hi). intros [E|Hin']; [|now apply Hin].
  apply Hq. rewrite <- E. now apply length_shard_dir.
Qed.



(** ** Slices *)






(** ** The loop of the sharded extraction, entry by entry *)







(** ** One entry whose directory is missing *)





(** ** The layout the extraction stages produce *)








(** *** The events of flat extraction *)



(** *** Every write is the write of an entry at its place *)


Section WritesAt.

Context (env : Env) (fs1 : FS) (zips : list string)
  (place : string -> string -> string).








End WritesAt.





(** ** A task that raises *)

Section Failure.

Context {A B : Type} (I : State -> list event -> Prop) (f : A -> M B) (x : A).

Hypothesis f_inv : forall y, inv I (f y).
Hypothesis f_raises : forall s t,
  I s t -> wp (f x) (fun res _ _ => exists e, res = Raise e) s t.

(** A chunk with the task [x] raises: at [x], or at a task before it. *)
Lemma map_m_raises l :
  In x l -> forall s t, I s t ->
  wp (map_m f l) (fun res s' t' => I s' t' /\ exists e, res = Raise e) s t.
Proof.
  induction l as [|y l IH]; intros Hin s t HI; [destruct Hin|].
  cbn [map_m]. apply wp_bind. destruct Hin as [->|Hin].
  - eapply wp_conseq; [apply wp_and; [apply (f_inv x s t HI)|apply (f_raises s t HI)]|].
    intros res s' t' [HI' [e ->]]. cbn [cont]. eauto.
  - eapply wp_conseq; [apply (f_inv y s t HI)|].
    intros [b|e] s' t' HI'; cbn [cont]; [|eauto].
    apply wp_bind. eapply wp_conseq; [apply (IH Hin s' t' HI')|].
    intros res s2 t2 [HI2 [e ->]]. cbn [cont]. eauto.
Qed.

(** The chunks always answer, each with its list of results or its
    exception. *)
Lemma run_chunks_answers chunks : forall s t, I s t ->
  wp (run_chunks f chunks) (fun res s' t' => I s' t' /\ exists r, res = Ok r) s t.
Proof.
  induction chunks as [|c chunks IH]; intros s t HI; cbn [run_chunks].
  - apply wp_ret. eauto.
  - apply wp_bind, wp_capture.
    eapply wp_conseq; [apply (inv_map_m I f c (fun y _ => f_inv y) s t HI)|].
    intros r s1 t1 HI1. cbn [cont]. apply wp_bind.
    eapply wp_conseq; [apply (IH s1 t1 HI1)|].
    intros res s2 t2 [HI2 [rs ->]]. cbn [cont]. apply wp_ret. eauto.
Qed.

Lemma run_chunks_raises chunks :
  In x (concat chunks) -> forall s t, I s t ->
  wp (run_chunks f chunks)
     (fun res s' t' => I s' t' /\ exists e, res = Ok (Raise e)) s t.
Proof.
  induction chunks as [|c chunks IH]; intros Hin s t HI; [destruct Hin|].
  cbn [concat] in Hin. cbn [run_chunks]. apply wp_bind, wp_capture.
  apply in_app_or in Hin as [Hin|Hin].
  - eapply wp_conseq; [apply (map_m_raises c Hin s t HI)|].
    intros r s1 t1 [HI1 [e ->]]. cbn [cont]. apply wp_bind.
    eapply wp_conseq; [apply (run_chunks_answers chunks s1 t1 HI1)|].
    intros res s2 t2 [HI2 [rs ->]]. cbn [cont]. apply wp_ret. simpl. eauto.
  - eapply wp_conseq; [apply (inv_map_m I f c (fun y _ => f_inv y) s t HI)|].
    intros r s1 t1 HI1. cbn [cont]. apply wp_bind.
    eapply wp_conseq; [apply (IH Hin s1 t1 HI1)|].
    intros res s2 t2 [HI2 [e ->]]. cbn [cont]. apply wp_ret.
    split; [exact HI2|]. destruct r; simpl; eauto.
Qed.

(** [starmap] re-raises when one of its tasks raises. *)
Lemma starmap_raises n l :
  In x l -> forall s t, I s t ->
  wp (starmap n f l) (fun res s' t' => I s' t' /\ exists e, res = Raise e) s t.
Proof.
  intros Hin s t HI. unfold starmap. apply wp_bind.
  rewrite <- (starmap_tasks_concat n l) in Hin.
  eapply wp_conseq; [apply (run_chunks_raises _ Hin s t HI)|].
  intros res s' t' [HI' [e ->]]. cbn [cont]. apply wp_lift. eauto.
Qed.

End Failure.






(** ** A run that downloads a reference file *)

Lemma all_files_spec P (fs : FS) :
  all_files P fs = true ->
  forall p c, fs !! p = Some (File c) -> P p = true.
Proof.
  unfold all_files. rewrite forallb_forall. intros H p c E.
  apply elem_of_map_to_list, list_elem_of_In in E.
  apply (H _ E).
Qed.

Lemma filter_none {A} (f : A -> bool) l :
  (forall x, In x l -> f x = false) -> List.filter f l = [].
Proof.
  induction l as [|x l IH]; intros H; [reflexivity|]. simpl.
  rewrite (H x) by now left. apply IH. intros y Hy. apply H. now right.
Qed.

(** [get_files_matching] finds nothing below a directory in which there is
    no file. *)
Lemma sample_files_matching_none (fs : FS) dir pattern :
  (forall p c, fs !! p = Some (File c) ->
     String.prefix (dir ++ "/") p = false) ->
  sample_files_matching fs dir pattern = Ok [].
Proof.
  intros H. unfold sample_files_matching. f_equal. apply filter_none.
  intros p Hin. apply in_map_iff in Hin as ([q n] & <- & Hin).
  apply filter_In in Hin as [Hin Hf]. destruct n as [c|]; [|discriminate].
  apply list_elem_of_In, elem_of_map_to_list in Hin. apply (H q c Hin).
Qed.

Lemma wp_starmap_nil {A B} n (f : A -> M B)
  (Q : res (list B) -> State -> list event -> Prop) s t :
  Q (Ok []) s t -> wp (starmap n f []) Q s t.
Proof. intros H. unfold wp, starmap. simpl. now rewrite app_nil_r. Qed.

(** Runs a call on a state that is known. *)
Ltac wp_compute :=
  lazymatch goal with
  | |- wp ?m ?Q ?s ?t =>
      let v := eval vm_compute in (m s) in
      change (wp m Q s t) with (Q (result v) (final v) (t ++ events v));
      cbn [result final events cont app]
  end.

Lemma reference_run_of_main :
  wp (main reference_env) reference_run (initial_state sample_fs None) [].
Proof.
  unfold main.
  do 20 (apply wp_bind; wp_compute).
  apply wp_bind. unfold unzip_covers_threaded. apply wp_bind.
  eapply wp_conseq.
  { apply (create_shard_dirs_returns "/w" "j400w").
    - reflexivity.
    - vm_compute. reflexivity.
    - vm_compute. reflexivity.
    - intros p c E. cbn [st_fs] in E.
      apply (all_files_spec (fun p => negb (Nat.eqb (String.length p) 22))) in E;
        [|vm_compute; reflexivity].
      apply negb_true_iff, Nat.eqb_neq in E. exact E. }
  intros res s1 t1 (-> & Hadd & Hg & Hh & Hf & _ & (u & -> & Hu) & _).
  cbn [cont st_fs st_globals st_fresh st_history] in *.
  lazymatch type of Hadd with
  | only_dirs_added ?fs0 _ =>
      assert (Hglob : forall dir pattern,
        all_files (fun p => negb (String.prefix (dir ++ "/") p)) fs0 = true ->
        env_files_matching reference_env (st_fs s1) dir pattern = Ok []);
      [|assert (Href : st_fs s1 !! "/dl/Reference/r1.zip"
                 = Some (File (Archive [("delta/a.xml", "xml bytes")])));
        [apply (lookup_weaken fs0 _ _ _); [vm_compute; reflexivity|apply Hadd]|]]
  end.
  { intros dir pattern H.
    change (env_files_matching reference_env) with sample_files_matching.
    apply sample_files_matching_none. intros p c E.
    destruct Hadd as [_ Hfiles]. apply Hfiles in E.
    apply (all_files_spec _ _ H) in E. now apply negb_true_iff in E. }
  clear Hadd.
  unfold get_files_matching, unzip_onix_threaded, with_pool, save_run_history.
  change (env_save reference_env) with (Ok tt).
  cbn [map_m map].
  repeat (first [apply wp_starmap_nil
                |rewrite Hglob by (vm_compute; reflexivity)
                |wp_prim]).
  clear Hglob. rewrite List.Forall_forall in Hu.
  split; [reflexivity|]. split; [reflexivity|]. split; [exact Href|].
  split; [|split; [|split]].
  - exists 2. rewrite !in_app_iff. simpl. tauto.
  - rewrite !in_app_iff. simpl. tauto.
  - intros z Hin. rewrite !in_app_iff in Hin. simpl in Hin.
    repeat (destruct Hin as [Hin|Hin]; try discriminate; try contradiction).
    apply (Hu _ Hin).
  - intros p Hin. rewrite !in_app_iff in Hin. simpl in Hin.
    repeat (destruct Hin as [Hin|Hin]; try discriminate; try contradiction).
    + now injection Hin as <-.
    + destruct (Hu _ Hin).
Qed.

(** C6 (as amended): in every run that commits the checkpoint, the four
    categories were listed and downloaded, and the archives found below
    the directories of the covers, of ONIX and of the ONIX backlist were
    extracted, all before the checkpoint; the archives that a run opens
    are those it found below one of these three directories.  The
    reference category is downloaded and no more: no stage looks for its
    archives or extracts them. *)
Theorem C6_extraction_covers_three_of_the_four_categories
  (env : Env) (fs : FS) (h : option N) :
  let o := main env (initial_state fs h) in
  In EvCheckpoint (events o) ->
  exists pre download_dir,
    events o = pre ++ [EvCheckpoint] /\
    (forall c, category_downloaded env download_dir pre c) /\
    Forall (directory_extracted pre) (unpacked_dirs download_dir) /\
    (forall z, In (EvZipOpen z) pre -> zip_of_run download_dir pre z).
Proof.
  intros o Hin.
  assert (H : run_outcome env h (result o) (final o) (events o)).
  { apply (main_run env (initial_state fs h)). reflexivity. }
  destruct H as [(e & _ & Hno & _)|(pre & dd & E & _ & Hd & Hx & Hz & _)].
  - contradiction.
  - exists pre, dd. auto.
Qed.

Lemma C6_witness :
  let o := main reference_env (initial_state sample_fs None) in
  In EvCheckpoint (events o) /\
  exists pre download_dir,
    events o = pre ++ [EvCheckpoint] /\
    (forall c, category_downloaded reference_env download_dir pre c) /\
    Forall (directory_extracted pre) (unpacked_dirs download_dir) /\
    (forall z, In (EvZipOpen z) pre -> zip_of_run download_dir pre z).
Proof.
  pose proof (wp_from_nil _ _ _ reference_run_of_main) as (_ & _ & _ & _ & Hc & _).
  split; [exact Hc|].
  exact (C6_extraction_covers_three_of_the_four_categories
           reference_env sample_fs None Hc).
Defined.

(** C6, the claim as stated, fails for the reference category.  On a feed
    whose only file is a reference archive the run downloads the archive
    and commits the checkpoint; the archive is in the download directory,
    no archive was opened, and nothing but the download was written. *)
Lemma C6_reference_archive_is_not_extracted :
  let o := main reference_env (initial_state sample_fs None) in
  result o = Ok tt /\
  st_history (final o) = Some 20261104%N /\
  st_fs (final o) !! "/dl/Reference/r1.zip"
    = Some (File (Archive [("delta/a.xml", "xml bytes")])) /\
  (exists sid,
     In (EvFetch sid "/Reference/r1.zip" "/dl/Reference/r1.zip") (events o)) /\
  In EvCheckpoint (events o) /\
  (forall z, ~ In (EvZipOpen z) (events o)) /\
  (forall p, In (EvWrite p) (events o) -> p = "/dl/Reference/r1.zip").
Proof. exact (wp_from_nil _ _ _ reference_run_of_main). Qed.

Lemma C1_witness :
  let o := main reference_env (initial_state sample_fs None) in
  result o = Ok tt /\
  In EvCheckpoint (events o) /\
  st_history (final o) = Some (env_now reference_env).
Proof.
  pose proof (wp_from_nil _ _ _ reference_run_of_main) as (Hr & _).
  split; [exact Hr|].
  exact (proj1 (proj2 (C1_checkpoint_is_last_and_only_after_the_pipeline
                         reference_env sample_fs None)) Hr).
Defined.
(** * Further properties

    ** The configuration *)

(** X1: when the configuration file does not exist [get_config] raises
    [RuntimeError] with a message that names the file, and changes
    nothing; [main] then ends with this error before it has done
    anything. *)
Theorem get_config_missing_file (env : Env) (s : State) :
  st_fs s !! config_file env = None ->
  let e := RuntimeError (quote ++ config_file env ++ quote ++ " does not exist") in
  (let o := get_config env s in
   result o = Raise e /\ final o = s /\ events o = []) /\
  (forall args, env_args env = Ok args ->
     let o := main env s in
     result o = Raise e /\ final o = s /\ events o = []).
Proof.
  intros H e.
  assert (Hex : exists_path (st_fs s) (config_file env) = false).
  { unfold exists_path. rewrite H.
    apply bool_decide_eq_false_2. intros [? ?]; discriminate. }
  split.
  - apply (wp_from_nil (get_config env)
             (fun r s' t' => r = Raise e /\ s' = s /\ t' = [])).
    unfold get_config. fold (config_file env).
    repeat (wp_prim; rewrite ?Hex). auto.
  - intros args Ha.
    apply (wp_from_nil (main env)
             (fun r s' t' => r = Raise e /\ s' = s /\ t' = [])).
    unfold main, get_config. fold (config_file env). rewrite Ha.
    repeat (wp_prim; rewrite ?Hex). auto.
Qed.

Lemma get_config_missing_file_witness :
  let o := main full_env (initial_state ∅ None) in
  st_fs (initial_state ∅ None) !! config_file full_env = None /\
  result o =
    Raise (RuntimeError
      (quote ++ "~/finderscope/config/ingram-data-services.cfg" ++ quote
       ++ " does not exist")) /\
  events o = [].
Proof.
  assert (H : st_fs (initial_state ∅ None) !! config_file full_env = None)
    by reflexivity.
  split; [exact H|].
  destruct (proj2 (get_config_missing_file full_env (initial_state ∅ None) H)
              (mkArgs "default" "/var/log/ingram.log") eq_refl) as (R & _ & E).
  split; [exact R|exact E].
Defined.




(** ** The downloads *)

(** X3: when the listing of one of the categories fails,
    [download_data_files] raises before it has created the pool: no file
    is asked for, nothing is written, and all that happened happened on
    the listing session. *)
Theorem download_data_files_listing_fails (env : Env) (download_dir : string)
  (s : State) (c : category) (e : exn) :
  env_listing env c (listing_folder (st_globals s) c) = Raise e ->
  let o := download_data_files env download_dir s in
  (exists e', result o = Raise e') /\
  st_fs (final o) = st_fs s /\
  Forall (fun ev => session_event ev = true) (events o).
Proof.
  intros H.
  apply (wp_from_nil (download_data_files env download_dir)
           (fun r s' t' =>
              (exists e', r = Raise e') /\ st_fs s' = st_fs s /\
              Forall (fun ev => session_event ev = true) t')).
  unfold download_data_files, with_IngramFTP, ftp_list.
  destruct c; cbn [listing_folder] in H;
    repeat (wp_prim; rewrite ?H);
    (split; [eauto|]); (split; [reflexivity|]);
    cbn [app]; repeat constructor.
Qed.

Lemma download_data_files_listing_fails_witness :
  let o := download_data_files refusing_env "/dl" (configured_state sample_fs) in
  (exists e', result o = Raise e') /\
  st_fs (final o) = sample_fs /\
  Forall (fun ev => session_event ev = true) (events o).
Proof.
  apply (download_data_files_listing_fails refusing_env "/dl"
           (configured_state sample_fs) Onix (FtpError "550 no such directory")).
  reflexivity.
Defined.




(** *** Each listed file is asked for once *)

Lemma calls_app t u : calls (t ++ u) = calls t ++ calls u.
Proof. unfold calls. now rewrite flat_map_app. Qed.

Lemma download_file_calls env r d s t :
  wp (download_file env r d) (fun _ _ t' => calls t' = calls t ++ [r]) s t.
Proof.
  unfold download_file, with_IngramFTP, ftp_download_file, pool_terminate,
    write_file.
  repeat wp_prim; rewrite ?calls_app; simpl; now rewrite ?app_nil_r.
Qed.

Section Calls.

Context (env : Env) (d : string).

Lemma map_m_calls (l : list string) : forall s t,
  wp (map_m (uncurry (download_file env)) (map (fun p : string => (p, d)) l))
     (fun r _ t' => forall bs, r = Ok bs -> calls t' = calls t ++ l) s t.
Proof.
  induction l as [|x l IH]; intros s t; cbn [map map_m].
  - apply wp_ret. intros _ _. now rewrite app_nil_r.
  - apply wp_bind. eapply wp_conseq; [apply download_file_calls|].
    intros [b|e] s1 t1 H1; cbn [cont]; [|discriminate].
    apply wp_bind. eapply wp_conseq; [apply IH|].
    intros [bs|e] s2 t2 H2; cbn [cont]; [|discriminate].
    apply wp_ret. intros _ _. rewrite (H2 bs eq_refl), H1.
    now rewrite <- app_assoc.
Qed.

Lemma run_chunks_calls (chunks : list (list string)) : forall s t,
  wp (run_chunks (uncurry (download_file env))
        (map (map (fun p : string => (p, d))) chunks))
     (fun r _ t' =>
        (exists v, r = Ok v) /\
        forall bs, r = Ok (Ok bs) -> calls t' = calls t ++ concat chunks) s t.
Proof.
  induction chunks as [|c chunks IH]; intros s t; cbn [map run_chunks concat].
  - apply wp_ret. split; [eauto|]. intros _ _. now rewrite app_nil_r.
  - apply wp_bind, wp_capture. eapply wp_conseq; [apply map_m_calls|].
    intros r1 s1 t1 H1. cbn [cont]. apply wp_bind.
    eapply wp_conseq; [apply IH|].
    intros rs s2 t2 [[v ->] H2]. cbn [cont]. apply wp_ret.
    split; [eauto|]. intros bs E.
    destruct r1 as [b1|e1]; [|discriminate].
    destruct v as [b2|e2]; [|discriminate].
    rewrite (H2 b2 eq_refl), (H1 b1 eq_refl). now rewrite <- app_assoc.
Qed.

Lemma get_tasks_map {A B} (g : A -> B) fuel size (l : list A) :
  get_tasks fuel size (map g l) = map (map g) (get_tasks fuel size l).
Proof.
  revert l. induction fuel as [|fuel IH]; intros l; [reflexivity|].
  cbn [get_tasks]. rewrite firstn_map, skipn_map, IH.
  now destruct (firstn size l).
Qed.

Lemma starmap_calls n (l : list string) s t :
  wp (starmap n (uncurry (download_file env)) (map (fun p : string => (p, d)) l))
     (fun r _ t' => forall bs, r = Ok bs -> calls t' = calls t ++ l) s t.
Proof.
  unfold starmap. rewrite length_map, get_tasks_map. apply wp_bind.
  eapply wp_conseq; [apply run_chunks_calls|].
  intros r s1 t1 [[v ->] H]. cbn [cont]. apply wp_lift.
  intros bs ->. rewrite (H bs eq_refl). now rewrite starmap_tasks_concat.
Qed.

End Calls.

(** X5: when [download_data_files] returns, [download_file] was called
    once for each file of the four listings and for nothing else: the
    covers first, then the ONIX files, the ONIX backlist and the reference
    files, each batch in the order of its listing (the pool is embedded by
    the schedule that runs the chunks of a batch one after the other). *)
Theorem download_data_files_calls_each_listed_file_once
  (env : Env) (download_dir : string) (s : State) :
  let o := download_data_files env download_dir s in
  result o = Ok tt ->
  exists cover_paths onix_paths onix_bklst_paths ref_paths,
    env_listing env Cover (cover_size (st_globals s)) = Ok cover_paths /\
    env_listing env Onix None = Ok onix_paths /\
    env_listing env OnixBacklist None = Ok onix_bklst_paths /\
    env_listing env Reference None = Ok ref_paths /\
    calls (events o)
      = cover_paths ++ onix_paths ++ onix_bklst_paths ++ ref_paths.
Proof.
  apply (wp_from_nil (download_data_files env download_dir)
           (fun r _ t' =>
              r = Ok tt ->
              exists a1 a2 a3 a4,
                env_listing env Cover (cover_size (st_globals s)) = Ok a1 /\
                env_listing env Onix None = Ok a2 /\
                env_listing env OnixBacklist None = Ok a3 /\
                env_listing env Reference None = Ok a4 /\
                calls t' = a1 ++ a2 ++ a3 ++ a4)).
  unfold download_data_files. apply wp_bind.
  unfold with_IngramFTP, ftp_list. wp_run; try discriminate.
  unfold with_pool. wp_run.
  eapply wp_conseq; [apply starmap_calls|].
  intros [bs1|e1] s1 t1 H1; cbn [cont]; [apply wp_bind|wp_run; discriminate].
  eapply wp_conseq; [apply starmap_calls|].
  intros [bs2|e2] s2 t2 H2; cbn [cont]; [apply wp_bind|wp_run; discriminate].
  eapply wp_conseq; [apply starmap_calls|].
  intros [bs3|e3] s3 t3 H3; cbn [cont]; [apply wp_bind|wp_run; discriminate].
  eapply wp_conseq; [apply starmap_calls|].
  intros [bs4|e4] s4 t4 H4; cbn [cont]; [|wp_run; discriminate].
  wp_run. intros _. exists a1, a2, a3, a4. repeat (split; [assumption|]).
  rewrite calls_app, (H4 _ eq_refl), (H3 _ eq_refl), (H2 _ eq_refl),
    (H1 _ eq_refl).
  rewrite !calls_app. simpl. now rewrite app_nil_r, <- !app_assoc.
Qed.

Lemma download_data_files_calls_each_listed_file_once_witness :
  let o := download_data_files full_env "/dl" (configured_state sample_fs) in
  result o = Ok tt /\
  calls (events o)
    = ["/Imageswk/j400w/c1.zip"; "/ONIX/o1.zip"; "/ONIX_BKLST/b1.zip";
       "/Reference/r1.zip"].
Proof.
  assert (R : result (download_data_files full_env "/dl"
                        (configured_state sample_fs)) = Ok tt)
    by (vm_compute; reflexivity).
  split; [exact R|].
  destruct (download_data_files_calls_each_listed_file_once full_env "/dl"
              (configured_state sample_fs) R)
    as (a1 & a2 & a3 & a4 & E1 & E2 & E3 & E4 & C).
  injection E1 as <-. injection E2 as <-. injection E3 as <-.
  injection E4 as <-. exact C.
Defined.
(** ** Archives that cannot be read *)

(** Steps to the next batch of a pool. *)
Ltac wp_to_starmap :=
  repeat (lazymatch goal with
          | |- wp (starmap _ _ _) _ _ _ => fail
          | |- _ => wp_prim
          end).

Lemma unreadable_no_archive file s t :
  unreadable file s t <-> forall m, no_archive file m s t.
Proof.
  unfold unreadable, open_error, no_archive. split.
  - intros [e H] m E. rewrite E in H. discriminate.
  - intros H. destruct (st_fs s !! file) as [[[b|m]|]|]; eauto.
    now destruct (H m).
Qed.

Lemma extract_unreadable (body : list (string * string) -> M unit) file e s t :
  open_error (st_fs s) file = Some e ->
  wp (with_ZipFile file body) (fun r s' t' => r = Raise e /\ s' = s /\ t' = t) s t.
Proof.
  unfold open_error. intros H. unfold with_ZipFile, zip_open.
  do 4 wp_prim.
  destruct (st_fs s !! file) as [[[b|m]|]|]; try discriminate;
    injection H as <-; wp_run; auto.
Qed.

(** X6: an archive that cannot be opened (the file is missing, is a
    directory, or is no zip file) makes the flat and the sharded extraction
    raise the error of the open, with nothing changed and nothing done. *)
Theorem extraction_of_unreadable_archive (file target_dir : string)
  (e : exn) (s : State) :
  open_error (st_fs s) file = Some e ->
  (let o := extract_zip file target_dir s in
   result o = Raise e /\ final o = s /\ events o = []) /\
  (let o := extract_cover_zip file target_dir s in
   result o = Raise e /\ final o = s /\ events o = []).
Proof.
  intros H. split.
  - apply (wp_from_nil (extract_zip file target_dir)
             (fun r s' t' => r = Raise e /\ s' = s /\ t' = [])).
    now apply extract_unreadable.
  - apply (wp_from_nil (extract_cover_zip file target_dir)
             (fun r s' t' => r = Raise e /\ s' = s /\ t' = [])).
    now apply extract_unreadable.
Qed.

Lemma extraction_of_unreadable_archive_witness :
  let s := initial_state broken_fs None in
  open_error (st_fs s) "/dl/ONIX/o2.zip" = Some BadZipFile /\
  result (extract_zip "/dl/ONIX/o2.zip" "/w/ONIX" s) = Raise BadZipFile /\
  result (extract_zip "/dl/ONIX/o3.zip" "/w/ONIX" s)
    = Raise (OSError "FileNotFoundError").
Proof.
  split; [reflexivity|]. split.
  - apply (extraction_of_unreadable_archive "/dl/ONIX/o2.zip" "/w/ONIX"
             BadZipFile (initial_state broken_fs None)). reflexivity.
  - apply (extraction_of_unreadable_archive "/dl/ONIX/o3.zip" "/w/ONIX"
             (OSError "FileNotFoundError") (initial_state broken_fs None)).
    reflexivity.
Defined.

(** What is no archive stays none: the extraction writes no archive. *)
Lemma unreadable_extract_zip file z target :
  inv (unreadable file) (extract_zip z target).
Proof.
  intros s t H. rewrite unreadable_no_archive in H.
  assert (W : wp (extract_zip z target)
                (fun _ s' t' => forall m, no_archive file m s' t') s t).
  { unfold wp. intros m. apply (no_archive_extract_zip file m z target s t (H m)). }
  eapply wp_conseq; [exact W|]. intros r s' t' H'.
  now apply unreadable_no_archive.
Qed.

(** X7: one archive that cannot be opened makes the whole ONIX stage
    raise, whatever the other archives are; the pool is terminated before
    the stage ends. *)
Theorem unzip_onix_threaded_unreadable_archive (env : Env)
  (data_zips : list string) (download_dir working_dir file : string)
  (s : State) :
  In file data_zips ->
  (exists e, open_error (st_fs s) file = Some e) ->
  let o := unzip_onix_threaded env data_zips download_dir working_dir s in
  (exists e', result o = Raise e') /\
  exists body,
    events o = EvPool (st_fresh s) :: body ++ [EvTerminate (st_fresh s)].
Proof.
  intros Hin He.
  apply (wp_from_nil
           (unzip_onix_threaded env data_zips download_dir working_dir)
           (fun r _ t' =>
              (exists e', r = Raise e') /\
              exists body,
                t' = EvPool (st_fresh s) :: body ++ [EvTerminate (st_fresh s)])).
  unfold unzip_onix_threaded, with_pool. cbv zeta. wp_to_starmap.
  eapply wp_conseq.
  { apply wp_and.
    - apply (starmap_raises (unreadable file) (uncurry extract_zip)
               (file, onix_extract_dir file download_dir working_dir)).
      + intros [z d]. apply unreadable_extract_zip.
      + intros s' t' [e' H']. eapply wp_conseq;
          [apply (extract_unreadable _ _ e' s' t' H')|].
        intros r s2 t2 (-> & _). eauto.
      + apply (in_map (fun z => (z, onix_extract_dir z download_dir working_dir))
                 data_zips file Hin).
      + exact He.
    - apply (wp_monotone _ (fun t' => exists u, t' = [EvPool (st_fresh s)] ++ u)).
      + intros t1 u1 [u ->]. exists (u ++ u1). now rewrite app_assoc.
      + exists []. reflexivity. }
  intros r s1 t1 [[_ [e' ->]] [u ->]]. cbn [cont]. wp_run.
  split; [eauto|]. exists u. reflexivity.
Qed.

Lemma unzip_onix_threaded_unreadable_archive_witness :
  let o := unzip_onix_threaded full_env
             ["/dl/ONIX/o1.zip"; "/dl/ONIX/o2.zip"] "/dl" "/w"
             (initial_state broken_fs None) in
  exists e', result o = Raise e'.
Proof.
  apply (unzip_onix_threaded_unreadable_archive full_env
           ["/dl/ONIX/o1.zip"; "/dl/ONIX/o2.zip"] "/dl" "/w" "/dl/ONIX/o2.zip"
           (initial_state broken_fs None)).
  - simpl. tauto.
  - exists BadZipFile. reflexivity.
Defined.

(** ** An archive is closed on every path *)

Lemma adds_nothing (P : event -> Prop) (t : list event) :
  exists u, t = t ++ u /\ Forall P u.
Proof. exists []. now rewrite app_nil_r. Qed.

Lemma for_each_adds {A} (P : event -> Prop) (l : list A) (body : A -> M unit) :
  (forall x s t,
     wp (body x) (fun _ _ t' => exists u, t' = t ++ u /\ Forall P u) s t) ->
  forall s t,
    wp (for_each l body) (fun _ _ t' => exists u, t' = t ++ u /\ Forall P u) s t.
Proof.
  intros Hb. induction l as [|x l IH]; intros s t; cbn [for_each].
  - apply wp_ret, adds_nothing.
  - apply wp_bind. eapply wp_conseq; [apply Hb|].
    intros [[]|e] s1 t1 (u1 & -> & Hu1); cbn [cont]; [|eauto].
    eapply wp_conseq; [apply IH|].
    intros r s2 t2 (u2 & -> & Hu2). exists (u1 ++ u2).
    rewrite app_assoc. split; [reflexivity|]. now apply Forall_app.
Qed.

Lemma zip_extract_adds members name path s t :
  wp (zip_extract members name path)
     (fun _ _ t' => exists u, t' = t ++ u /\ Forall fs_event u) s t.
Proof.
  eapply wp_conseq; [apply zip_extract_spec|]. cbv zeta.
  intros r s' t' (_ & _ & _ & _ & _ & _ & u & -> & Hu).
  exists u. split; [reflexivity|]. apply List.Forall_forall.
  intros e He. destruct (Hu e He) as [->|[-> _]]; exact Logic.I.
Qed.

Lemma with_ZipFile_bracket (body : list (string * string) -> M unit) file :
  (forall zf s t,
     wp (body zf) (fun _ _ t' => exists u, t' = t ++ u /\ Forall fs_event u) s t) ->
  forall s t,
    wp (with_ZipFile file body)
       (fun _ _ t' =>
          t' = t \/
          exists u, t' = t ++ EvZipOpen file :: u ++ [EvZipClose file] /\
                    Forall fs_event u) s t.
Proof.
  intros Hb s t. unfold with_ZipFile, zip_open. do 4 wp_prim.
  destruct (st_fs s !! file) as [[[b|m]|]|]; try (wp_run; now left).
  repeat wp_prim. eapply wp_conseq; [apply Hb|].
  intros r s1 t1 (u & -> & Hu). wp_run; right; exists u;
    (split; [|exact Hu]); now rewrite <- !app_assoc.
Qed.

(** X8: the flat and the sharded extraction close the archive they opened
    on every path, also when the extraction of an entry raises: either the
    archive could not be opened and nothing happened, or the events are
    the opening of the archive, events of the file system, and the closing
    of the archive. *)
Theorem extraction_closes_the_archive (file target_dir : string) (s : State) :
  (let o := extract_zip file target_dir s in
   events o = [] \/
   exists u, events o = EvZipOpen file :: u ++ [EvZipClose file] /\
             Forall fs_event u) /\
  (let o := extract_cover_zip file target_dir s in
   events o = [] \/
   exists u, events o = EvZipOpen file :: u ++ [EvZipClose file] /\
             Forall fs_event u).
Proof.
  split.
  - apply (wp_from_nil (extract_zip file target_dir)
             (fun _ _ t' =>
                t' = [] \/
                exists u, t' = [] ++ EvZipOpen file :: u ++ [EvZipClose file] /\
                          Forall fs_event u)).
    apply with_ZipFile_bracket. intros zf s' t'. unfold zip_extractall.
    apply for_each_adds. intros x s2 t2. apply zip_extract_adds.
  - apply (wp_from_nil (extract_cover_zip file target_dir)
             (fun _ _ t' =>
                t' = [] \/
                exists u, t' = [] ++ EvZipOpen file :: u ++ [EvZipClose file] /\
                          Forall fs_event u)).
    apply with_ZipFile_bracket. intros zf s' t'. cbv zeta.
    apply for_each_adds. intros x s2 t2. wp_run.
    + apply zip_extract_adds.
    + apply adds_nothing.
Qed.

(** ** What flat extraction leaves behind *)





(** ** A second sharded extraction *)



(** ** The shard directories *)

Lemma shard_loop_noop w cs (l : list N) s t :
  cover_size (st_globals s) = Some cs ->
  (forall i, In i l -> st_fs s !! shard_dir w cs i = Some Dir) ->
  wp (for_each l (fun i =>
        cs <- get_cover_size ;;
        makedirs (Py.join_all w ["Imageswk"; cs; Py.fmt04 i]) true))
     (fun r s' t' => r = Ok tt /\ s' = s /\ t' = t) s t.
Proof.
  intros Hcs. induction l as [|i l IH]; intros Hl; cbn [for_each].
  - apply wp_ret. auto.
  - assert (Hd : st_fs s !! Py.join_all w ["Imageswk"; cs; Py.fmt04 i] = Some Dir)
      by (apply Hl; now left).
    unfold get_cover_size at 1, makedirs at 1.
    repeat (wp_prim; rewrite ?Hcs, ?Hd).
    apply IH. intros j Hj. apply Hl. now right.
Qed.

(** X10: the loop of the shard directories is idempotent.  Where all the
    directories of the keyspace exist it does nothing and returns; so a
    second run of it after one that returned changes nothing and creates
    nothing. *)
Theorem create_shard_dirs_idempotent (working_dir cs : string) (s : State) :
  cover_size (st_globals s) = Some cs ->
  (shard_dirs_exist working_dir cs (st_fs s) ->
   let o := create_shard_dirs working_dir s in
   result o = Ok tt /\ final o = s /\ events o = []) /\
  (result (create_shard_dirs working_dir s) = Ok tt ->
   let s1 := final (create_shard_dirs working_dir s) in
   let o := create_shard_dirs working_dir s1 in
   result o = Ok tt /\ final o = s1 /\ events o = []).
Proof.
  intros Hcs.
  assert (Hnoop : forall s', cover_size (st_globals s') = Some cs ->
    shard_dirs_exist working_dir cs (st_fs s') ->
    result (create_shard_dirs working_dir s') = Ok tt /\
    final (create_shard_dirs working_dir s') = s' /\
    events (create_shard_dirs working_dir s') = []).
  { intros s' Hcs' Hex.
    apply (wp_from_nil (create_shard_dirs working_dir)
             (fun r s2 t2 => r = Ok tt /\ s2 = s' /\ t2 = [])).
    unfold create_shard_dirs. apply (shard_loop_noop _ cs); [exact Hcs'|].
    intros i Hi. apply Hex. apply In_range in Hi. exact Hi. }
  split; [intros Hex; now apply Hnoop|].
  intros Hok.
  destruct (wp_from_nil _ _ _ (create_shard_dirs_spec working_dir s []))
    as (_ & Hg & _ & _ & _ & Hex).
  destruct (Hex cs Hcs) as (Hdirs & _).
  set (pre := create_shard_dirs working_dir s) in *. clearbody pre.
  apply Hnoop; [congruence|auto].
Qed.

Lemma create_shard_dirs_idempotent_witness :
  let s := configured_state lazy_fs in
  let s1 := final (create_shard_dirs "/w" s) in
  result (create_shard_dirs "/w" s) = Ok tt /\
  result (create_shard_dirs "/w" s1) = Ok tt /\
  final (create_shard_dirs "/w" s1) = s1 /\
  events (create_shard_dirs "/w" s1) = [].
Proof.
  assert (R : result (create_shard_dirs "/w" (configured_state lazy_fs)) = Ok tt).
  { apply (wp_from_nil _ _ _
             (create_shard_dirs_returns "/w" "j400w" (configured_state lazy_fs) []
                eq_refl eq_refl eq_refl
                ltac:(intros q c H; unfold configured_state, lazy_fs in H;
                      cbn [st_fs] in H;
                      apply lookup_singleton_Some in H as [<- _];
                      vm_compute; lia))). }
  split; [exact R|].
  exact (proj2 (create_shard_dirs_idempotent "/w" "j400w"
                  (configured_state lazy_fs) eq_refl) R).
Defined.

(** X11: a file that has the name of one of the shard directories makes
    the loop of the shard directories raise, [exist_ok] or not; the cover
    stage then ends before it has created the pool or opened an archive. *)
Theorem create_shard_dirs_file_in_the_way (env : Env)
  (cover_zips : list string) (working_dir cs : string) (i : N) (c : content)
  (s : State) :
  cover_size (st_globals s) = Some cs ->
  (i < 10000)%N ->
  st_fs s !! shard_dir working_dir cs i = Some (File c) ->
  (exists e, result (create_shard_dirs working_dir s) = Raise e) /\
  (let o := unzip_covers_threaded env cover_zips working_dir s in
   (exists e, result o = Raise e) /\ Forall is_makedirs (events o)).
Proof.
  intros Hcs Hi Hfile.
  destruct (wp_from_nil _ _ _ (create_shard_dirs_spec working_dir s []))
    as ([Hsub _] & _ & _ & _ & (u & Hu & Hmk & _) & Hex).
  destruct (Hex cs Hcs) as (Hdirs & _).
  unfold unzip_covers_threaded.
  rewrite (events_bind (create_shard_dirs working_dir)).
  unfold bind at 1.
  set (pre := create_shard_dirs working_dir s) in *. clearbody pre.
  assert (R : exists e, result pre = Raise e).
  { destruct (result pre) as [[]|e]; [|eauto].
    specialize (Hdirs eq_refl i Hi).
    rewrite (lookup_weaken _ _ _ _ Hfile Hsub) in Hdirs. discriminate. }
  split; [exact R|]. destruct R as [e R]. rewrite R. cbn [result].
  split; [eauto|]. rewrite app_nil_r. simpl in Hu. now rewrite Hu.
Qed.

Lemma create_shard_dirs_file_in_the_way_witness :
  let s := configured_state blocked_fs in
  st_fs s !! shard_dir "/w" "j400w" 42 = Some (File (Data "stray")) /\
  exists e, result (unzip_covers_threaded full_env [] "/w" s) = Raise e.
Proof.
  assert (H : st_fs (configured_state blocked_fs) !! shard_dir "/w" "j400w" 42
              = Some (File (Data "stray"))) by (vm_compute; reflexivity).
  split; [exact H|].
  exact (proj1 (proj2 (create_shard_dirs_file_in_the_way full_env [] "/w"
                         "j400w" 42 (Data "stray") (configured_state blocked_fs)
                         eq_refl eq_refl H))).
Defined.

Lemma range_head n : (0 < n)%N -> exists l, Py.range n = 0%N :: l.
Proof.
  intros H. unfold Py.range. destruct (N.to_nat n) as [|k] eqn:E; [lia|].
  simpl. eauto.
Qed.

(** X14: while the module global [cover_size] is unset the cover stage
    raises [TypeError] at the first path it builds, before it has created
    a directory or a pool. *)
Theorem unzip_covers_threaded_without_cover_size (env : Env)
  (cover_zips : list string) (working_dir : string) (s : State) :
  cover_size (st_globals s) = None ->
  let o := unzip_covers_threaded env cover_zips working_dir s in
  result o = Raise TypeError /\ final o = s /\ events o = [].
Proof.
  intros Hcs.
  apply (wp_from_nil (unzip_covers_threaded env cover_zips working_dir)
           (fun r s' t' => r = Raise TypeError /\ s' = s /\ t' = [])).
  unfold unzip_covers_threaded, create_shard_dirs.
  destruct (range_head 10000 eq_refl) as [l ->].
  cbn [for_each]. unfold get_cover_size at 1.
  repeat (wp_prim; rewrite ?Hcs). auto.
Qed.

Lemma unzip_covers_threaded_without_cover_size_witness :
  let o := unzip_covers_threaded full_env ["/dl/Imageswk/j400w/c1.zip"] "/w"
             (initial_state first_cover_fs None) in
  result o = Raise TypeError /\ events o = [].
Proof.
  destruct (unzip_covers_threaded_without_cover_size full_env
              ["/dl/Imageswk/j400w/c1.zip"] "/w"
              (initial_state first_cover_fs None) eq_refl) as (R & _ & E).
  split; [exact R|exact E].
Defined.
(** ** The pools of the extraction stages *)

Lemma adds_snoc (P : event -> Prop) t0 s s' t e :
  P e -> adds P t0 s t -> adds P t0 s' (t ++ [e]).
Proof.
  intros He (u & -> & Hu). exists (u ++ [e]). rewrite app_assoc.
  split; [reflexivity|]. apply Forall_app. split; [exact Hu|].
  constructor; [exact He|constructor].
Qed.

Lemma adds_start (P : event -> Prop) t0 s : adds P t0 s t0.
Proof. exists []. now rewrite app_nil_r. Qed.

(** A pool block whose workers add no event of a pool. *)
Lemma with_pool_bracket {A} (body : nat -> M A) :
  (forall pid t0, inv (adds (fun e => ~ pool_event e) t0) (body pid)) ->
  forall s t,
    wp (with_pool body)
       (fun _ _ t' =>
          exists u, t' = t ++ EvPool (st_fresh s) :: u ++ [EvTerminate (st_fresh s)] /\
                    Forall (fun e => ~ pool_event e) u) s t.
Proof.
  intros Hb s t. unfold with_pool. repeat wp_prim.
  eapply wp_conseq; [apply (Hb _ (t ++ [EvPool (st_fresh s)])), adds_start|].
  intros r s1 t1 (u & -> & Hu). wp_run; exists u;
    (split; [|exact Hu]); now rewrite <- !app_assoc.
Qed.

Lemma extraction_workers_add_no_pool_event env
  (f : string -> string -> M unit) (args : list (string * string)) t0 :
  (forall z d, inv (adds (fun e => ~ pool_event e) t0) (f z d)) ->
  inv (adds (fun e => ~ pool_event e) t0)
    (starmap (nprocs env) (uncurry f) args ;;; ret tt).
Proof.
  intros Hf. apply inv_bind; [|intros _; apply inv_ret].
  apply inv_starmap. intros [z d] _. apply Hf.
Qed.

(** X12: each extraction stage terminates the pool it created, whatever
    happens to its workers.  The events of the ONIX stage are the creation
    of the pool, the events of the workers, and the end of the pool; those
    of the cover stage are the events of the loop of the shard
    directories, followed by nothing or by a pool block of this shape. *)
Theorem extraction_stages_terminate_their_pool (env : Env) (s : State) :
  (forall data_zips download_dir working_dir,
     exists u,
       events (unzip_onix_threaded env data_zips download_dir working_dir s)
         = EvPool (st_fresh s) :: u ++ [EvTerminate (st_fresh s)] /\
       Forall (fun e => ~ pool_event e) u) /\
  (forall cover_zips working_dir,
     let pre := events (create_shard_dirs working_dir s) in
     let o := unzip_covers_threaded env cover_zips working_dir s in
     events o = pre \/
     exists pid u,
       events o = pre ++ EvPool pid :: u ++ [EvTerminate pid] /\
       Forall (fun e => ~ pool_event e) u).
Proof.
  assert (Hz : forall t0 z d,
    inv (adds (fun e => ~ pool_event e) t0) (extract_zip z d)).
  { intros t0 z d. apply stage_extract_zip;
      try (intros; eapply adds_snoc; [|eassumption]; simpl; tauto).
    intros s' t' fs H. exact H. }
  assert (Hc : forall t0 z d,
    inv (adds (fun e => ~ pool_event e) t0) (extract_cover_zip z d)).
  { intros t0 z d. apply stage_extract_cover_zip;
      try (intros; eapply adds_snoc; [|eassumption]; simpl; tauto).
    intros s' t' fs H. exact H. }
  split.
  - intros zips dd w.
    apply (wp_from_nil (unzip_onix_threaded env zips dd w)
             (fun _ _ t' =>
                exists u,
                  t' = [] ++ EvPool (st_fresh s) :: u ++ [EvTerminate (st_fresh s)] /\
                  Forall (fun e => ~ pool_event e) u)).
    unfold unzip_onix_threaded. cbv zeta. apply with_pool_bracket.
    intros pid t0. apply extraction_workers_add_no_pool_event. intros z d. apply Hz.
  - intros zips w pre o.
    apply (wp_from_nil (unzip_covers_threaded env zips w)
             (fun _ _ t' =>
                t' = pre \/
                exists pid u,
                  t' = pre ++ EvPool pid :: u ++ [EvTerminate pid] /\
                  Forall (fun e => ~ pool_event e) u)).
    unfold unzip_covers_threaded. apply wp_bind.
    apply (wp_conseq _ (fun _ _ t' => t' = pre)); [reflexivity|].
    intros [[]|e] s1 t1 ->; cbn [cont]; [|now left].
    apply wp_bind. eapply wp_conseq; [apply cover_args_spec|].
    intros [args|e] s2 t2 (-> & -> & _); cbn [cont]; [|now left].
    eapply wp_conseq; [apply with_pool_bracket|].
    + intros pid t0. apply extraction_workers_add_no_pool_event.
      intros z d. apply Hc.
    + intros r s2 t2 (u & -> & Hu). right. eauto.
Qed.
(** ** The order of the options in the help *)

Lemma str_lt_asym a : forall b, str_lt a b = true -> str_lt b a = false.
Proof.
  induction a as [|x a IH]; intros [|y b]; simpl; try congruence.
  rewrite (Ascii.eqb_sym y x). destruct (Ascii.eqb x y); [apply IH|].
  intros H. apply N.ltb_lt in H. apply N.ltb_ge. lia.
Qed.

Lemma list_lt_asym a : forall b, list_lt a b = true -> list_lt b a = false.
Proof.
  induction a as [|x a IH]; intros [|y b]; simpl; try congruence.
  rewrite (String.eqb_sym y x). destruct (String.eqb x y); [apply IH|].
  apply str_lt_asym.
Qed.

Lemma insert_action_in_order x l : in_order l -> in_order (insert_action x l).
Proof.
  induction 1 as [|a|a b l Hab Hl IH]; cbn [insert_action].
  - constructor.
  - destruct (list_lt (option_strings a) (option_strings x)) eqn:E.
    + constructor; [now apply list_lt_asym|constructor].
    + constructor; [exact E|constructor].
  - destruct (list_lt (option_strings a) (option_strings x)) eqn:E.
    + cbn [insert_action] in IH.
      destruct (list_lt (option_strings b) (option_strings x)) eqn:E'.
      * constructor; [exact Hab|exact IH].
      * constructor; [now apply list_lt_asym|exact IH].
    + constructor; [exact E|]. constructor; [exact Hab|exact Hl].
Qed.

Lemma insert_action_perm x l : Permutation (x :: l) (insert_action x l).
Proof.
  induction l as [|y l IH]; cbn [insert_action]; [reflexivity|].
  destruct (list_lt (option_strings y) (option_strings x)); [|reflexivity].
  rewrite perm_swap. now apply perm_skip.
Qed.

(** X16: the help formatter gets every action once, and in an order in
    which no action is followed by one with smaller option strings. *)
Theorem add_arguments_sorts_the_actions (actions : list Action) :
  Permutation actions (add_arguments actions) /\
  in_order (add_arguments actions).
Proof.
  unfold add_arguments, sorted_by_option_strings.
  induction actions as [|x l [IHp IHo]]; cbn [foldr].
  - split; [reflexivity|constructor].
  - split.
    + rewrite <- insert_action_perm. now apply perm_skip.
    + now apply insert_action_in_order.
Qed.
(** ** Downloads come before extractions *)

Lemma downloading_snoc s s' t e :
  extraction_event e = false -> downloading s t -> downloading s' (t ++ [e]).
Proof.
  intros He H. apply Forall_app. split; [exact H|]. now constructor.
Qed.

Section Phases.

Context (env : Env).

Lemma downloading_get_config : inv downloading (get_config env).
Proof.
  apply stage_get_config.
Qed.

Lemma downloading_setup_logger f : inv downloading (setup_logger env f).
Proof.
  apply stage_setup_logger; intros;
    first [assumption|eapply downloading_snoc; [reflexivity|eassumption]].
Qed.

Lemma downloading_download_data_files d :
  inv downloading (download_data_files env d).
Proof.
  apply stage_download_data_files; intros;
    first [assumption|eapply downloading_snoc; [reflexivity|eassumption]].
Qed.

Context (t1 : list event).

Let extracting := adds (fun e => download_event e = false) t1.

Lemma extracting_snoc s s' t e :
  download_event e = false -> extracting s t -> extracting s' (t ++ [e]).
Proof. intros He H. now apply (adds_snoc _ t1 s s' t e He). Qed.

Lemma extracting_get_files_matching d p :
  inv extracting (get_files_matching env d p).
Proof.
  apply stage_get_files_matching; intros;
    first [assumption|eapply extracting_snoc; [reflexivity|eassumption]].
Qed.

Lemma extracting_unzip_covers_threaded zips w :
  inv extracting (unzip_covers_threaded env zips w).
Proof.
  apply stage_unzip_covers_threaded; intros;
    first [assumption|eapply extracting_snoc; [reflexivity|eassumption]].
Qed.

Lemma extracting_unzip_onix_threaded zips d w :
  inv extracting (unzip_onix_threaded env zips d w).
Proof.
  apply stage_unzip_onix_threaded; intros;
    first [assumption|eapply extracting_snoc; [reflexivity|eassumption]].
Qed.

Lemma extracting_save_run_history : inv extracting (save_run_history env).
Proof.
  apply stage_save_run_history; intros;
    first [assumption|eapply extracting_snoc; [reflexivity|eassumption]].
Qed.

End Phases.

(** X17: in a run of [main] the downloads are over before the first
    extraction stage starts: the events of the run are a first part in
    which no directory is searched and no archive is opened or closed,
    followed by a second part without a call of [download_file] and
    without an event of a session. *)
Theorem main_downloads_before_it_extracts (env : Env) (s : State) :
  exists t1 t2,
    events (main env s) = t1 ++ t2 /\
    Forall (fun e => extraction_event e = false) t1 /\
    Forall (fun e => download_event e = false) t2.
Proof.
  apply (wp_from_nil (main env)
           (fun _ _ t' =>
              exists t1 t2, t' = t1 ++ t2 /\
                Forall (fun e => extraction_event e = false) t1 /\
                Forall (fun e => download_event e = false) t2)).
  assert (H0 : downloading s []) by constructor.
  assert (Hend : forall s' t', downloading s' t' ->
    exists t1 t2, t' = t1 ++ t2 /\
      Forall (fun e => extraction_event e = false) t1 /\
      Forall (fun e => download_event e = false) t2).
  { intros s' t' H. exists t', []. rewrite app_nil_r. repeat split; auto. }
  revert H0. generalize (@nil event). intros t H.
  unfold main.
  repeat first
    [ wp_prim
    | eapply inv_wp;
      [ first [apply downloading_get_config|apply downloading_setup_logger]
      | eassumption
      | intros ? ? ? ? ] ];
    try (eapply Hend; eassumption).
  eapply (inv_wp downloading);
    [apply downloading_download_data_files|eassumption|].
  intros [[]|e] s2 t2 H2; cbn [cont]; [|eapply Hend; exact H2].
  apply (inv_wp (adds (fun e => download_event e = false) t2)).
  - repeat (apply inv_bind;
            [first [apply extracting_get_files_matching
                   |apply extracting_unzip_covers_threaded
                   |apply extracting_unzip_onix_threaded]
            |intros ?]).
    apply extracting_save_run_history.
  - apply adds_start.
  - intros ? s3 t3 (u & -> & Hu). exists t2, u. repeat split; auto.
Qed.

(** * An interrupted transfer *)



(** * Nothing is removed *)

Section Kept.

Context (env : Env) (fs0 : FS).

Lemma kept_emit e : inv (kept fs0) (emit e).
Proof. intros s t H. apply wp_emit. exact H. Qed.

Lemma kept_fresh_id : inv (kept fs0) fresh_id.
Proof. intros s t H. apply wp_fresh_id. exact H. Qed.

Lemma kept_put_globals g : inv (kept fs0) (put_globals g).
Proof. intros s t H. apply wp_put_globals. exact H. Qed.

Lemma kept_put_history h : inv (kept fs0) (put_history h).
Proof. intros s t H. apply wp_put_history. exact H. Qed.

#[local] Hint Resolve kept_emit kept_fresh_id kept_put_globals
  kept_put_history : inv.

Lemma kept_get_globals : inv (kept fs0) get_globals.
Proof. unfold get_globals. inv_auto. Qed.

Lemma kept_makedirs p exist_ok : inv (kept fs0) (makedirs p exist_ok).
Proof.
  intros s t H. unfold makedirs. wp_run; try exact H.
  intros q k Hq. destruct (H q k Hq) as (k' & Hk' & K). cbn [st_fs].
  rewrite add_dirs_lookup. destruct (in_dec _ q _) as [Hin|_]; [|eauto].
  exists Dir. split; [reflexivity|].
  destruct k as [c|]; [|reflexivity]. destruct k' as [c'|]; [|discriminate].
  exfalso. eapply existsb_is_file_false; eauto.
Qed.

Lemma kept_write_file p c : inv (kept fs0) (write_file p c).
Proof.
  intros s t H. unfold write_file. wp_run; try exact H.
  all: intros q k Hq; destruct (H q k Hq) as (k' & Hk' & K); cbn [st_fs].
  all: destruct (decide (p = q)) as [->|Hne];
    [|rewrite lookup_insert_ne by exact Hne; eauto].
  all: rewrite lookup_insert_eq; exists (File c); split; [reflexivity|].
  all: destruct k; [reflexivity|]; destruct k'; [discriminate|congruence].
Qed.

#[local] Hint Resolve kept_get_globals kept_makedirs kept_write_file : inv.

Lemma kept_zip_extract zf name path :
  inv (kept fs0) (zip_extract zf name path).
Proof. unfold zip_extract. inv_auto. Qed.

#[local] Hint Resolve kept_zip_extract : inv.

Lemma kept_with_ZipFile {A} file (body : list (string * string) -> M A) :
  (forall zf, inv (kept fs0) (body zf)) -> inv (kept fs0) (with_ZipFile file body).
Proof. intros Hb. unfold with_ZipFile, zip_open. inv_auto. Qed.

Lemma kept_extract_cover_zip file target :
  inv (kept fs0) (extract_cover_zip file target).
Proof.
  unfold extract_cover_zip. apply kept_with_ZipFile. intros zf. inv_auto.
Qed.

Lemma kept_extract_zip file target : inv (kept fs0) (extract_zip file target).
Proof.
  unfold extract_zip, zip_extractall. apply kept_with_ZipFile.
  intros zf. inv_auto.
Qed.

#[local] Hint Resolve kept_extract_cover_zip kept_extract_zip : inv.

Lemma kept_unzip_onix_threaded zips d w :
  inv (kept fs0) (unzip_onix_threaded env zips d w).
Proof. unfold unzip_onix_threaded. inv_auto. Qed.

Lemma kept_unzip_covers_threaded zips w :
  inv (kept fs0) (unzip_covers_threaded env zips w).
Proof.
  unfold unzip_covers_threaded, create_shard_dirs, get_cover_size. inv_auto.
Qed.

Lemma kept_get_files_matching d p : inv (kept fs0) (get_files_matching env d p).
Proof. unfold get_files_matching. inv_auto. Qed.

Lemma kept_get_config : inv (kept fs0) (get_config env).
Proof. unfold get_config. inv_auto. Qed.

Lemma kept_setup_logger f : inv (kept fs0) (setup_logger env f).
Proof. unfold setup_logger. inv_auto. Qed.

Lemma kept_save_run_history : inv (kept fs0) (save_run_history env).
Proof. unfold save_run_history. inv_auto. Qed.

Lemma kept_with_IngramFTP {A} (body : nat -> M A) :
  (forall ftp, inv (kept fs0) (body ftp)) -> inv (kept fs0) (with_IngramFTP env body).
Proof. intros Hb. unfold with_IngramFTP. inv_auto. Qed.

Lemma kept_download_file r d : inv (kept fs0) (download_file env r d).
Proof.
  unfold download_file. inv_auto. apply kept_with_IngramFTP. intros ftp.
  unfold ftp_download_file, pool_terminate. inv_auto.
Qed.

#[local] Hint Resolve kept_download_file : inv.

Lemma kept_download_data_files d : inv (kept fs0) (download_data_files env d).
Proof.
  unfold download_data_files. apply inv_bind.
  - apply kept_with_IngramFTP. intros ftp. unfold ftp_list. inv_auto.
  - intros [[[cp op] bp] rp]. inv_auto.
Qed.

#[local] Hint Resolve kept_unzip_onix_threaded kept_unzip_covers_threaded
  kept_get_files_matching kept_get_config kept_setup_logger
  kept_save_run_history kept_download_data_files : inv.


End Kept.


